(** * transform-csv: column classification, settings cache and lag expansion

    A shallow embedding of [transform-csv.py].  The script reads a CSV file
    into a table, lets the user classify every column as windowed, dropped
    or kept, stores the classification in a JSON cache keyed by the resolved
    input path, and writes a derived table in which every windowed column is
    expanded into [n_lags] shifted copies.

    Layout of the development:
    - insertion-ordered dictionaries with text keys, and the text
      operations the script uses;
    - [Pandas]: the part of the table library that [transform] relies on
      (column lookup, positional slicing, column assignment with index
      alignment), for tables with the default row index; [Labelled], further
      down, is the same part for tables with any row labels;
    - [FieldsSetting] and [transform];
    - the settings cache ([load_all_cache], [save_fields_setting],
      [load_fields_setting]);
    - the key loop of [configure_fields_settings_interactively];
    - the properties of the specification, stated over these definitions;
    - the lemmas and theorems. *)

From Stdlib Require Import ZArith Lia Ascii.
From stdpp Require Import base decidable option list sorting gmap strings pretty.

Open Scope string_scope.
Open Scope list_scope.
Open Scope nat_scope.

(* [set_solver] clears hypotheses by name while it searches. *)
#[local] Set Warnings "-clear-no-such-hyp".

(** ** Errors *)

(** The exceptions the modelled code can raise. *)
Inductive exn : Type :=
  | OSError
  | JSONDecodeError
  | KeyError (key : string)
  | IndexError
  | ValueError
  | UnexpectedField (field : string).

(** A computation that returns or raises. *)
Inductive result (A : Type) : Type :=
  | Ok (a : A)
  | Raise (e : exn).
Arguments Ok {A} a.
Arguments Raise {A} e.

Global Instance result_ret : MRet result := λ A a, Ok a.
Global Instance result_bind : MBind result := λ A B f m,
  match m with
  | Ok a => f a
  | Raise e => Raise e
  end.
Global Instance result_fmap : FMap result := λ A B f m,
  match m with
  | Ok a => Ok (f a)
  | Raise e => Raise e
  end.

(** ** Dictionaries in insertion order *)

(** A Python [dict] with text keys (and the column store of a frame): the
    entries in iteration order.  The keys of a dictionary are distinct. *)
Section dict.
Context {V : Type}.

(** [d.get(key)]; [key in d] is [is_Some (dict_get key d)]. *)
Fixpoint dict_get (key : string) (d : list (string * V)) : option V :=
  match d with
  | [] => None
  | (k, v) :: d' => if decide (k = key) then Some v else dict_get key d'
  end.

(** [d[key] = v]: a known key keeps its place and takes the new value, a
    new key goes last. *)
Fixpoint dict_set (key : string) (v : V) (d : list (string * V))
  : list (string * V) :=
  match d with
  | [] => [(key, v)]
  | (k, w) :: d' =>
      if decide (k = key) then (k, v) :: d'
      else (k, w) :: dict_set key v d'
  end.

Definition key_le (x y : string * V) : Prop := String.le x.1 y.1.

Global Instance key_le_dec : RelDecision key_le.
Proof. intros x y. unfold key_le. apply _. Defined.

(** The entries as [json.dumps(..., sort_keys=True)] writes them. *)
Definition sort_keys (d : list (string * V)) : list (string * V) :=
  merge_sort key_le d.
End dict.

(** ** Text *)

(** [s.endswith(suffix)]: some tail of [s] is [suffix]. *)
Fixpoint endswith (s suffix : string) : bool :=
  if decide (s = suffix) then true
  else match s with
       | EmptyString => false
       | String _ s' => endswith s' suffix
       end.

Fixpoint has_slash (s : string) : bool :=
  match s with
  | EmptyString => false
  | String c s' => bool_decide (c = "/"%char) || has_slash s'
  end.

(** [PurePath(p).name] for a resolved path [p]: the text after the last
    ["/"]. *)
Fixpoint path_name (p : string) : string :=
  match p with
  | EmptyString => EmptyString
  | String c p' =>
      if has_slash p' then path_name p'
      else if decide (c = "/"%char) then p' else p
  end.

(** [ord(c)] *)
Definition ord (c : ascii) : Z := Z.of_nat (nat_of_ascii c).

(** [l[i]] for a Python index, which counts from the end when negative;
    [None] stands for [IndexError]. *)
Definition list_getitem {A} (l : list A) (i : Z) : option A :=
  if (0 <=? i)%Z then l !! Z.to_nat i
  else if (0 <=? Z.of_nat (length l) + i)%Z
       then l !! Z.to_nat (Z.of_nat (length l) + i)
       else None.

(** ** The table library, as far as [transform] uses it *)

Module Pandas.

(** Every table is read with [dtype=str]: a cell is text, or the missing
    marker ([NaN]/[None]), which is [None] here. *)
Abbreviation cell := (option string) (only parsing).

(** A series with the default index [RangeIndex(len)]: the index label of
    an entry is its position.  [append(..., ignore_index=True)] produces
    this index, and [read_csv] does when no data row has more fields than
    the header; the tables with other row labels are the subject of
    [Labelled] below. *)
Abbreviation Series := (list cell) (only parsing).

(** A frame with the default index: the length of its [RangeIndex] and
    its columns in order. *)
Record DataFrame : Type := mkDataFrame {
  index_len : nat;
  columns : list (string * Series)
}.

(** [pd.DataFrame(dtype=str)] *)
Definition empty_frame : DataFrame := mkDataFrame 0 [].

(** [len(df)] *)
Definition len (df : DataFrame) : nat := index_len df.

(** [list(df.columns)] *)
Definition names (df : DataFrame) : list string := (columns df).*1.

(** [df[key]]; [None] stands for the [KeyError] of an unknown column. *)
Definition getitem (df : DataFrame) (key : string) : option Series :=
  dict_get key (columns df).

(** [s[:stop]], with Python's reading of a negative [stop]. *)
Definition slice_to (stop : Z) (s : Series) : Series :=
  if (0 <=? stop)%Z then take (Z.to_nat stop) s
  else take (Z.to_nat (Z.of_nat (length s) + stop)) s.

(** [s.append(t, ignore_index=True)] *)
Definition append_ignore_index (s t : Series) : Series := s ++ t.

(** [s.reindex(RangeIndex(k))]: labels beyond [k] are cut, labels the
    series lacks are filled with the missing marker. *)
Definition reindex (k : nat) (s : Series) : Series :=
  take k s ++ replicate (k - length s) None.

(** [DataFrame._ensure_valid_index]: a frame whose index is still empty
    takes the index of the first non-empty value assigned to it, and the
    columns it already has are reindexed to it. *)
Definition ensure_valid_index (df : DataFrame) (value : Series) : DataFrame :=
  if decide (index_len df = 0 ∧ 0 < length value)
  then mkDataFrame (length value)
         (prod_map id (reindex (length value)) <$> columns df)
  else df.

(** [df[key] = value] for a series [value]: the value is aligned to the
    index of the frame; an existing column of that name is replaced where
    it stands, a new name is added after the last column. *)
Definition setitem (df : DataFrame) (key : string) (value : Series)
  : DataFrame :=
  let df' := ensure_valid_index df value in
  mkDataFrame (index_len df')
    (dict_set key (reindex (index_len df') value) (columns df')).

(** A frame as [read_csv] builds it: distinct column names, every column
    as long as the index. *)
Definition wf (df : DataFrame) : Prop :=
  NoDup (names df) ∧ Forall (λ c, length c.2 = index_len df) (columns df).

Global Instance wf_dec df : Decision (wf df).
Proof. unfold wf. apply _. Defined.

End Pandas.

(** ** The classification *)

Record FieldsSetting : Type := mkFieldsSetting {
  all_fields : list string;
  fields_to_window : list string;
  fields_to_drop : list string
}.

Global Instance FieldsSetting_eq_dec : EqDecision FieldsSetting.
Proof. solve_decision. Defined.

(** ** [transform] *)

(** [f"{f}_T-{i}"] *)
Definition new_field (f : string) (i : nat) : string :=
  f +:+ "_T-" +:+ pretty i.

(** The body of [for i in range(n_lags)], run over the remaining values of
    [i].  [df[f]] is evaluated in every round; [None] stands for its
    [KeyError]. *)
Fixpoint transform_lags (df : Pandas.DataFrame) (f : string) (lags : list nat)
    (df_new : Pandas.DataFrame) : option Pandas.DataFrame :=
  match lags with
  | [] => Some df_new
  | i :: lags' =>
      col ← Pandas.getitem df f;
      let value :=
        Pandas.append_ignore_index (replicate i None)
          (Pandas.slice_to (Z.of_nat (Pandas.len df) - Z.of_nat i) col) in
      transform_lags df f lags' (Pandas.setitem df_new (new_field f i) value)
  end.

(** The body of [for f in fields_setting.all_fields], run over the remaining
    fields. *)
Fixpoint transform_fields (df : Pandas.DataFrame)
    (_fields_to_window _fields_to_drop : gset string) (n_lags : nat)
    (fields : list string) (df_new : Pandas.DataFrame)
    : option Pandas.DataFrame :=
  match fields with
  | [] => Some df_new
  | f :: fields' =>
      if decide (f ∈ _fields_to_window) then
        df_new' ← transform_lags df f (seq 0 n_lags) df_new;
        transform_fields df _fields_to_window _fields_to_drop n_lags
          fields' df_new'
      else if decide (f ∈ _fields_to_drop) then
        transform_fields df _fields_to_window _fields_to_drop n_lags
          fields' df_new
      else
        col ← Pandas.getitem df f;
        transform_fields df _fields_to_window _fields_to_drop n_lags
          fields' (Pandas.setitem df_new f col)
  end.

(** [transform(df, fields_setting, n_lags)]; [n_lags] has passed
    [positive_int], and [range(n_lags)] is [seq 0 n_lags]. *)
Definition transform (df : Pandas.DataFrame) (fields_setting : FieldsSetting)
    (n_lags : nat) : option Pandas.DataFrame :=
  let _fields_to_window : gset string :=
    list_to_set (fields_to_window fields_setting) in
  let _fields_to_drop : gset string :=
    list_to_set (fields_to_drop fields_setting) in
  transform_fields df _fields_to_window _fields_to_drop n_lags
    (all_fields fields_setting) Pandas.empty_frame.

(** ** The settings cache *)

(** What reading [CACHE_PATH] does.  The model starts from the outcome of
    the file access and of the JSON decoder: the file is absent, or it
    cannot be opened or read, or its text is not JSON, or its text decodes
    to a dictionary from keys to plain classifications (a dictionary of
    lists of text), in the order of the text. *)
Inductive cache_file : Type :=
  | Missing
  | Unreadable
  | Corrupt
  | Stored (all_cache : list (string * gmap string (list string))).

(** The decoded dictionary has distinct keys. *)
Definition cache_wf (file : cache_file) : Prop :=
  match file with
  | Stored all_cache => NoDup all_cache.*1
  | _ => True
  end.

Global Instance cache_wf_dec file : Decision (cache_wf file).
Proof. destruct file; simpl; apply _. Defined.

(** [load_all_cache()] *)
Definition load_all_cache (file : cache_file)
    : result (list (string * gmap string (list string))) :=
  match file with
  | Missing => Ok []
  | Unreadable => Raise OSError
  | Corrupt => Raise JSONDecodeError
  | Stored all_cache => Ok all_cache
  end.

(** [save_all_cache(all_cache)]: the file is rewritten with the keys sorted;
    reading it back decodes to the dictionary in that order. *)
Definition save_all_cache (all_cache : list (string * gmap string (list string)))
    : cache_file :=
  Stored (sort_keys all_cache).

Definition to_plain (self : FieldsSetting) : gmap string (list string) :=
  <["fields_to_drop" := fields_to_drop self]>
    (<["fields_to_window" := fields_to_window self]>
       (<["all_fields" := all_fields self]> ∅)).

(** [plain_obj[key]] *)
Definition plain_getitem (plain_obj : gmap string (list string)) (key : string)
    : result (list string) :=
  match plain_obj !! key with
  | Some v => Ok v
  | None => Raise (KeyError key)
  end.

Definition from_plain (plain_obj : gmap string (list string))
    : result FieldsSetting :=
  a ← plain_getitem plain_obj "all_fields";
  w ← plain_getitem plain_obj "fields_to_window";
  d ← plain_getitem plain_obj "fields_to_drop";
  mret (mkFieldsSetting a w d).

(** [save_fields_setting(input_file_path, fields_setting)], from the resolved
    path on: [input_file_path] is the text of [input_file_path.resolve()].
    The result is the cache file afterwards. *)
Definition save_fields_setting (file : cache_file) (input_file_path : string)
    (fields_setting : FieldsSetting) : result cache_file :=
  let key := input_file_path in
  all_cache ← load_all_cache file;
  mret (save_all_cache (dict_set key (to_plain fields_setting) all_cache)).

(** The loop [for k in all_cache] of [load_fields_setting]. *)
Fixpoint load_by_suffix (filename : string)
    (all_cache : list (string * gmap string (list string)))
    : result (option FieldsSetting) :=
  match all_cache with
  | [] => Ok None
  | (k, plain_obj) :: all_cache' =>
      if endswith k filename then Some <$> from_plain plain_obj
      else load_by_suffix filename all_cache'
  end.

(** [load_fields_setting(input_file_path)], from the resolved path on. *)
Definition load_fields_setting (file : cache_file) (input_file_path : string)
    : result (option FieldsSetting) :=
  let key := input_file_path in
  all_cache ← load_all_cache file;
  match dict_get key all_cache with
  | Some plain_obj => Some <$> from_plain plain_obj
  | None =>
      let filename := path_name input_file_path in
      load_by_suffix filename all_cache
  end.

(** ** The interactive classification *)

Module Curses.
Definition KEY_DOWN : Z := 258.
Definition KEY_UP : Z := 259.
Definition KEY_ENTER : Z := 343.
End Curses.

Module Session.

(** The variables the key loop works on. *)
Record state : Type := mkState {
  all_fields : list string;
  current_field_idx : Z;
  fields_to_window : gset string;
  fields_to_drop : gset string;
  fields_to_keep : gset string
}.

Definition set_idx (st : state) (idx : Z) : state :=
  mkState (all_fields st) idx (fields_to_window st) (fields_to_drop st)
    (fields_to_keep st).

Definition go_down (st : state) : state :=
  if (current_field_idx st <? Z.of_nat (length (all_fields st)) - 1)%Z
  then set_idx st (current_field_idx st + 1)
  else st.

Definition go_up (st : state) : state :=
  if (current_field_idx st >? 0)%Z
  then set_idx st (current_field_idx st - 1)
  else st.

(** How one round of [while True] leaves the key dispatch. *)
Inductive step : Type :=
  | Continue (st : state)
  | Break
  | Exit
  | Raised (e : exn).

(** [all_fields[current_field_idx]], then the continuation. *)
Definition with_current_field (st : state) (k : string → state) : step :=
  match list_getitem (all_fields st) (current_field_idx st) with
  | Some current_field => Continue (go_down (k current_field))
  | None => Raised IndexError
  end.

(** The [if key == ... elif ...] chain; [key] is [None] before the first
    [getch]. *)
Definition dispatch (key : option Z) (st : state) : step :=
  if decide (key = Some Curses.KEY_DOWN) then Continue (go_down st)
  else if decide (key = Some Curses.KEY_UP) then Continue (go_up st)
  else if decide (key = Some (ord "k") ∨ key = Some (ord " ")) then
    with_current_field st (λ current_field,
      mkState (all_fields st) (current_field_idx st)
        (fields_to_window st ∖ {[current_field]})
        (fields_to_drop st ∖ {[current_field]})
        (fields_to_keep st ∪ {[current_field]}))
  else if decide (key = Some (ord "d")) then
    with_current_field st (λ current_field,
      mkState (all_fields st) (current_field_idx st)
        (fields_to_window st ∖ {[current_field]})
        (fields_to_drop st ∪ {[current_field]})
        (fields_to_keep st ∖ {[current_field]}))
  else if decide (key = Some (ord "w")) then
    with_current_field st (λ current_field,
      mkState (all_fields st) (current_field_idx st)
        (fields_to_window st ∪ {[current_field]})
        (fields_to_drop st ∖ {[current_field]})
        (fields_to_keep st ∖ {[current_field]}))
  else if decide (key = Some Curses.KEY_ENTER ∨ key = Some (ord "010")) then
    Break
  else if decide (key = Some 27%Z ∨ key = Some (ord "q")) then Exit
  else Continue st.

(** The flag drawn in front of a field. *)
Definition flag (st : state) (field : string) : result ascii :=
  if decide (field ∈ fields_to_window st) then Ok "w"%char
  else if decide (field ∈ fields_to_drop st) then Ok "d"%char
  else if decide (field ∈ fields_to_keep st) then Ok " "%char
  else Raise (UnexpectedField field).

(** The lines written below the guide text, in order:
    [f"[{flag}] {field}"].  The calls of the screen library are taken to
    succeed: an error that [pad.addstr] raises itself, for a text that
    does not fit the pad on the screen, is outside the model. *)
Fixpoint draw (st : state) (fields : list string) : result (list string) :=
  match fields with
  | [] => Ok []
  | field :: fields' =>
      fl ← flag st field;
      rest ← draw st fields';
      mret (("[" +:+ String fl "] " +:+ field) :: rest)
  end.

(** The first row of the pad that is shown. *)
Definition scroll_offset (st : state) (height : Z) : Z :=
  Z.max 0 (current_field_idx st - height + 2).

(** How the function ends, for the keys that [getch] delivers: it returns
    a classification, it leaves the process, it raises, or it waits in
    [getch] for the next key. *)
Inductive outcome : Type :=
  | Returned (fields_setting : FieldsSetting)
  | Exited
  | Failed (e : exn)
  | Waiting (st : state).

(** The body of [while True] for the current [key], then the rounds for
    the keys still to come.  The order in which [list(set)] lists a set
    is not fixed by the language; the model lists the elements in the
    order of [elements], and what is stated about a returned
    classification speaks of membership in its lists. *)
Fixpoint loop (key : option Z) (keys : list Z) (st : state) : outcome :=
  match dispatch key st with
  | Break =>
      Returned (mkFieldsSetting (all_fields st)
                  (elements (fields_to_window st))
                  (elements (fields_to_drop st)))
  | Exit => Exited
  | Raised e => Failed e
  | Continue st' =>
      match draw st' (all_fields st') with
      | Raise e => Failed e
      | Ok _ =>
          match keys with
          | [] => Waiting st'
          | key' :: keys' => loop (Some key') keys' st'
          end
      end
  end.

(** The variables as they are set before the loop. *)
Definition init (fields_setting : FieldsSetting) : state :=
  let '(mkFieldsSetting all_fields fields_to_window fields_to_drop) :=
    fields_setting in
  let fields_to_window : gset string := list_to_set fields_to_window in
  let fields_to_drop : gset string := list_to_set fields_to_drop in
  mkState all_fields 0 fields_to_window fields_to_drop
    (list_to_set all_fields ∖ fields_to_window ∖ fields_to_drop).

(** [configure_fields_settings_interactively(stdscr, fields_setting)] for
    the keys [keys] read from the terminal.  [max(len(f) for f in
    all_fields)] raises on an empty field list. *)
Definition configure_fields_settings_interactively (keys : list Z)
    (fields_setting : FieldsSetting) : outcome :=
  let st := init fields_setting in
  match all_fields st with
  | [] => Failed ValueError
  | _ => loop None keys st
  end.

End Session.

(** ** The properties of the specification, over these definitions *)

(** *** The derived table *)

(** The column of lag [i] in the words of the specification: the source
    column moved down by [i] rows, the head filled with the missing marker,
    the length unchanged. *)
Definition shifted (i : nat) (col : Pandas.Series) : Pandas.Series :=
  take (length col) (replicate i None ++ col).

(** The output names one field stands for: its [n_lags] generated names when
    windowed, none when dropped, its own name when kept. *)
Definition field_columns (W D : gset string) (n_lags : nat) (f : string)
    : list string :=
  if decide (f ∈ W) then new_field f <$> seq 0 n_lags
  else if decide (f ∈ D) then []
  else [f].

(** The column list of the specification: the fields in their order, each
    replaced by the names it stands for. *)
Definition output_columns (fs : FieldsSetting) (n_lags : nat) : list string :=
  all_fields fs ≫=
    field_columns (list_to_set (fields_to_window fs))
                  (list_to_set (fields_to_drop fs)) n_lags.

(** The same with the contents of the columns. *)
Definition field_assignments (df : Pandas.DataFrame) (W D : gset string)
    (n_lags : nat) (f : string) : list (string * Pandas.Series) :=
  match Pandas.getitem df f with
  | None => []
  | Some col =>
      if decide (f ∈ W)
      then (λ i, (new_field f i, shifted i col)) <$> seq 0 n_lags
      else if decide (f ∈ D) then []
      else [(f, col)]
  end.

Definition output_assignments (df : Pandas.DataFrame) (fs : FieldsSetting)
    (n_lags : nat) : list (string * Pandas.Series) :=
  all_fields fs ≫=
    field_assignments df (list_to_set (fields_to_window fs))
                      (list_to_set (fields_to_drop fs)) n_lags.

(** A run of assignments, on columns and on names alone. *)
Definition assign_all (cols asg : list (string * Pandas.Series))
    : list (string * Pandas.Series) :=
  foldl (λ acc kv, dict_set kv.1 kv.2 acc) cols asg.

Definition assign_name (key : string) (ns : list string) : list string :=
  if decide (key ∈ ns) then ns else ns ++ [key].

Definition assign_names (ns keys : list string) : list string :=
  foldl (λ acc k, assign_name k acc) ns keys.

(** The frames [transform] builds for a table of [n] rows, [0 < n]: the
    empty frame, and frames whose index has length [n]. *)
Definition fits (n : nat) (d : Pandas.DataFrame) : Prop :=
  d = Pandas.empty_frame ∨ Pandas.index_len d = n.

(** The three states of a field of a classification. *)
Definition windowed (fs : FieldsSetting) (f : string) : Prop :=
  f ∈ all_fields fs ∧ f ∈ fields_to_window fs.

Definition dropped (fs : FieldsSetting) (f : string) : Prop :=
  f ∈ all_fields fs ∧ (f ∉ fields_to_window fs) ∧ f ∈ fields_to_drop fs.

Definition kept (fs : FieldsSetting) (f : string) : Prop :=
  f ∈ all_fields fs ∧ (f ∉ fields_to_window fs) ∧ (f ∉ fields_to_drop fs).

Global Instance kept_dec fs f : Decision (kept fs f).
Proof. unfold kept. apply _. Defined.

(** The classification speaks of columns of the table. *)
Definition fields_in_table (df : Pandas.DataFrame) (fs : FieldsSetting) : Prop :=
  Forall (λ f, is_Some (Pandas.getitem df f)) (all_fields fs).

Global Instance fields_in_table_dec df fs : Decision (fields_in_table df fs).
Proof. unfold fields_in_table. apply _. Defined.

(** [s] is the column of lag [i] of the source column [col] of [df]. *)
Definition lag_column (df : Pandas.DataFrame) (col : Pandas.Series) (i : nat)
    (s : Pandas.Series) : Prop :=
  length s = Pandas.len df
  ∧ (∀ r, r < i → r < Pandas.len df → s !! r = Some None)
  ∧ (∀ r, i ≤ r → r < Pandas.len df → s !! r = col !! (r - i))
  ∧ (i = 0 → s = col).

(** Every windowed field has its [n_lags] columns, each the shifted source
    column. *)
Definition lag_columns_spec (df : Pandas.DataFrame) (fs : FieldsSetting)
    (n_lags : nat) : Prop :=
  ∃ out, transform df fs n_lags = Some out
    ∧ ∀ f col, windowed fs f → Pandas.getitem df f = Some col →
        NoDup (new_field f <$> seq 0 n_lags)
        ∧ ∀ i, i < n_lags →
            ∃ s, Pandas.getitem out (new_field f i) = Some s
                 ∧ lag_column df col i s.


(** The kept fields are columns of the output, in their order, with the
    contents of the source. *)
Definition kept_fields_spec (df : Pandas.DataFrame) (fs : FieldsSetting)
    (n_lags : nat) : Prop :=
  ∃ out, transform df fs n_lags = Some out
    ∧ filter (kept fs) (Pandas.names out) = filter (kept fs) (all_fields fs)
    ∧ ∀ f, kept fs f → Pandas.getitem out f = Pandas.getitem df f.

(** *** The classification *)

(** The invariant of the data model: the windowed and the dropped fields
    are fields, and no field is both. *)
Definition setting_wf (fs : FieldsSetting) : Prop :=
  Forall (λ f, f ∈ all_fields fs) (fields_to_window fs)
  ∧ Forall (λ f, f ∈ all_fields fs) (fields_to_drop fs)
  ∧ Forall (λ f, f ∉ fields_to_drop fs) (fields_to_window fs).

Global Instance setting_wf_dec fs : Decision (setting_wf fs).
Proof. unfold setting_wf. apply _. Defined.

(** The same on the variables of the key loop; the kept fields are the
    fields that are neither windowed nor dropped. *)
Definition partition_inv (st : Session.state) : Prop :=
  let all : gset string := list_to_set (Session.all_fields st) in
  Session.fields_to_window st ## Session.fields_to_drop st
  ∧ Session.fields_to_window st ⊆ all
  ∧ Session.fields_to_drop st ⊆ all
  ∧ Session.fields_to_keep st
    = all ∖ Session.fields_to_window st ∖ Session.fields_to_drop st.

(** Every field is in exactly one of the three sets. *)
Definition exactly_one_state (st : Session.state) : Prop :=
  ∀ f, f ∈ Session.all_fields st →
    (f ∈ Session.fields_to_window st ∧ (f ∉ Session.fields_to_drop st)
       ∧ (f ∉ Session.fields_to_keep st))
    ∨ ((f ∉ Session.fields_to_window st) ∧ f ∈ Session.fields_to_drop st
       ∧ (f ∉ Session.fields_to_keep st))
    ∨ ((f ∉ Session.fields_to_window st) ∧ (f ∉ Session.fields_to_drop st)
       ∧ f ∈ Session.fields_to_keep st).

(** The cursor is an index of the field list. *)
Definition cursor_inv (st : Session.state) : Prop :=
  (0 ≤ Session.current_field_idx st
   ≤ Z.of_nat (length (Session.all_fields st)) - 1)%Z.

(** The ways the key dispatch can leave a state whose cursor selects a field:
    the cases of the [if] chain, with the selected field [f]. *)
Inductive dispatched (st : Session.state) : Session.step → Prop :=
  | dispatched_down : dispatched st (Session.Continue (Session.go_down st))
  | dispatched_up : dispatched st (Session.Continue (Session.go_up st))
  | dispatched_keep f :
      f ∈ Session.all_fields st →
      dispatched st
        (Session.Continue (Session.go_down
           (Session.mkState (Session.all_fields st) (Session.current_field_idx st)
              (Session.fields_to_window st ∖ {[f]}) (Session.fields_to_drop st ∖ {[f]})
              (Session.fields_to_keep st ∪ {[f]}))))
  | dispatched_drop f :
      f ∈ Session.all_fields st →
      dispatched st
        (Session.Continue (Session.go_down
           (Session.mkState (Session.all_fields st) (Session.current_field_idx st)
              (Session.fields_to_window st ∖ {[f]}) (Session.fields_to_drop st ∪ {[f]})
              (Session.fields_to_keep st ∖ {[f]}))))
  | dispatched_window f :
      f ∈ Session.all_fields st →
      dispatched st
        (Session.Continue (Session.go_down
           (Session.mkState (Session.all_fields st) (Session.current_field_idx st)
              (Session.fields_to_window st ∪ {[f]}) (Session.fields_to_drop st ∖ {[f]})
              (Session.fields_to_keep st ∖ {[f]}))))
  | dispatched_break : dispatched st Session.Break
  | dispatched_exit : dispatched st Session.Exit
  | dispatched_other : dispatched st (Session.Continue st).

(** The drawing of the field lines does not raise. *)
Definition is_Ok_draw (st : Session.state) (fields : list string) : Prop :=
  ∃ lines, Session.draw st fields = Ok lines.

(** What holds at every point a session can reach. *)
Definition session_ok (fs : FieldsSetting) (o : Session.outcome) : Prop :=
  match o with
  | Session.Waiting st =>
      Session.all_fields st = all_fields fs
      ∧ partition_inv st ∧ exactly_one_state st ∧ cursor_inv st
  | Session.Returned fs' => all_fields fs' = all_fields fs ∧ setting_wf fs'
  | Session.Exited => True
  | Session.Failed e => all_fields fs = []
  end.

(** *** The cache *)

(** The fallback of the specification: a classification saved under [key1]
    is what a later load under [key2] returns, when [key2] is no key of the
    cache. *)
Definition fallback_spec (file : cache_file) (key1 key2 : string)
    (fs : FieldsSetting) : Prop :=
  ∀ file' all_cache,
    save_fields_setting file key1 fs = Ok file' →
    load_all_cache file' = Ok all_cache →
    dict_get key2 all_cache = None →
    load_fields_setting file' key2 = Ok (Some fs).

(** A cache file that cannot be read counts as an empty cache. *)
Definition unreadable_as_empty (file : cache_file) (input_file_path : string)
    : Prop :=
  load_fields_setting file input_file_path
  = load_fields_setting (Stored []) input_file_path.

(** *** Sample inputs *)

(** The table of the specification's example: one column [A = [1,2,3]]. *)
Definition table_A : Pandas.DataFrame :=
  Pandas.mkDataFrame 3 [("A", [Some "1"; Some "2"; Some "3"])].

Definition window_A : FieldsSetting := mkFieldsSetting ["A"] ["A"] [].

(** A table that has a column [A] and a column with the name of [A]'s first
    generated column, in both orders. *)
Definition table_A_lag : Pandas.DataFrame :=
  Pandas.mkDataFrame 2
    [("A", [Some "1"; Some "2"]); ("A_T-0", [Some "x"; Some "y"])].

Definition window_A_keep_lag : FieldsSetting :=
  mkFieldsSetting ["A"; "A_T-0"] ["A"] [].

Definition table_lag_A : Pandas.DataFrame :=
  Pandas.mkDataFrame 2
    [("A_T-0", [Some "x"; Some "y"]); ("A", [Some "1"; Some "2"])].

Definition keep_lag_window_A : FieldsSetting :=
  mkFieldsSetting ["A_T-0"; "A"] ["A"] [].

(** The same fields with [A_T-0] dropped. *)
Definition window_A_drop_lag : FieldsSetting :=
  mkFieldsSetting ["A"; "A_T-0"] ["A"] ["A_T-0"].

(** A table with a header and no rows. *)
Definition table_no_rows : Pandas.DataFrame :=
  Pandas.mkDataFrame 0 [("id", []); ("A", [])].

Definition keep_id_window_A : FieldsSetting :=
  mkFieldsSetting ["id"; "A"] ["A"] [].

(** The end-to-end example of the specification. *)
Definition table_id_value : Pandas.DataFrame :=
  Pandas.mkDataFrame 2
    [("id", [Some "a"; Some "b"]); ("value", [Some "10"; None]);
     ("note", [None; Some "n"])].

Definition keep_id_window_value : FieldsSetting :=
  mkFieldsSetting ["id"; "value"; "note"] ["value"] ["note"].

(** A classification that names [value] as windowed and as dropped. *)
Definition window_and_drop_value : FieldsSetting :=
  mkFieldsSetting ["id"; "value"; "note"] ["value"] ["value"; "note"].

Definition setting_x : FieldsSetting := mkFieldsSetting ["x"; "y"] ["x"] [].
Definition setting_y : FieldsSetting := mkFieldsSetting ["x"; "y"] [] ["y"].

(** A cache that knows a file of the same name in a directory that sorts
    before [/a/b]. *)
Definition cache_a_a : cache_file :=
  Stored [("/a/a/data.csv", to_plain setting_x)].

(** A cache that knows a file of the same name in a directory that sorts
    after [/a/b]. *)
Definition cache_b_a : cache_file :=
  Stored [("/b/a/data.csv", to_plain setting_x)].

(** A cache with two keys that end with [data.csv]; the first is the path
    of a file of another name. *)
Definition cache_two_matches : cache_file :=
  Stored [("/a/bdata.csv", to_plain setting_x);
          ("/c/data.csv", to_plain setting_y)].

(** A session on three fields with the cursor on the last one. *)
Definition session_at_end : Session.state :=
  Session.mkState ["a"; "b"; "c"] 2 {["a"]} {["b"]} {["c"]}.

Definition setting_abc : FieldsSetting :=
  mkFieldsSetting ["a"; "b"; "c"] ["a"] ["b"].

(** ** The rest of the script *)

(** *** The pad and the part of it that is shown *)

Module Screen.

Definition GUIDE_TEXT : string :=
  "Configure fields settings: [w] Window  [d] Drop  [k] Keep  [ENTER] Proceed  [q] Quit".

(** [max(len(f) for f in all_fields)], which raises on an empty list.
    [len] counts the characters of the text of the model; the cells a
    text takes on the screen are not modelled. *)
Definition max_len (all_fields : list string) : result nat :=
  match all_fields with
  | [] => Raise ValueError
  | f :: fields => Ok (foldl (λ m g, m `max` String.length g) (String.length f) fields)
  end.

Definition pad_width (all_fields : list string) : result nat :=
  m ← max_len all_fields;
  mret (String.length GUIDE_TEXT `max` (m + 4)).

Definition pad_height (all_fields : list string) : nat :=
  length all_fields + 2.

(** One [pad.addstr(row, 0, text)], with the style it is written in. *)
Record addstr : Type := mkAddstr {
  row : nat;
  text : string;
  current : bool
}.

(** The body of [for i, field in enumerate(all_fields)], from index [i]
    on. *)
Fixpoint field_lines (st : Session.state) (i : nat) (fields : list string)
    : result (list addstr) :=
  match fields with
  | [] => Ok []
  | field :: fields' =>
      let current :=
        bool_decide (Z.of_nat i = Session.current_field_idx st) in
      fl ← Session.flag st field;
      rest ← field_lines st (S i) fields';
      mret (mkAddstr (i + 1) ("[" +:+ String fl "] " +:+ field) current
              :: rest)
  end.

(** What one round of the loop writes to the pad: the guide text, then
    the field lines. *)
Definition redraw (st : Session.state) : result (list addstr) :=
  lines ← field_lines st 0 (Session.all_fields st);
  mret (mkAddstr 0 GUIDE_TEXT false :: lines).

(** The arguments of [pad.refresh]. *)
Record refresh_args : Type := mkRefresh {
  pminrow : Z;
  pmincol : Z;
  sminrow : Z;
  smincol : Z;
  smaxrow : Z;
  smaxcol : Z
}.

(** [pad.refresh(max(0, current_field_idx - height + 2), 0, 0, 0,
    min(height, pad_height) - 1, min(width, pad_width) - 1)] for a
    terminal of [height] rows and [width] columns. *)
Definition refresh (st : Session.state) (height width : Z)
    : result refresh_args :=
  w ← pad_width (Session.all_fields st);
  mret (mkRefresh
          (Z.max 0 (Session.current_field_idx st - height + 2)) 0 0 0
          (Z.min height (Z.of_nat (pad_height (Session.all_fields st))) - 1)
          (Z.min width (Z.of_nat w) - 1)).

(** The rows of the pad that end up on the terminal. *)
Definition shown_row (a : refresh_args) (r : Z) : Prop :=
  (pminrow a ≤ r ≤ pminrow a + (smaxrow a - sminrow a))%Z.

End Screen.

(** *** The command line *)

Module Args.

(** How a [type=] function of the argument parser ends. *)
Inductive parsed (A : Type) : Type :=
  | Accepted (a : A)
  | ArgumentTypeError (message : string)
  | OverflowError.
Arguments Accepted {A} a.
Arguments ArgumentTypeError {A} message.
Arguments OverflowError {A}.

(** [s.split("/")] *)
Fixpoint split_slash (s : string) : list string :=
  match s with
  | EmptyString => [EmptyString]
  | String c s' =>
      if decide (c = "/"%char) then EmptyString :: split_slash s'
      else match split_slash s' with
           | x :: xs => String c x :: xs
           | [] => [String c EmptyString]
           end
  end.

(** [PurePosixPath(s).name]: the last component of [s] that is neither
    empty nor ["."]; the empty text when there is none. *)
Definition name (s : string) : string :=
  default EmptyString
    (last (filter (λ x, x ≠ EmptyString ∧ x ≠ ".") (split_slash s))).

(** [name.rfind(".")], on the characters of the name. *)
Fixpoint rfind_dot (cs : list ascii) : option nat :=
  match cs with
  | [] => None
  | c :: cs' =>
      match rfind_dot cs' with
      | Some i => Some (S i)
      | None => if decide (c = "."%char) then Some 0 else None
      end
  end.

(** [PurePath.suffix]: the name from its last dot on, when that dot is
    neither the first nor the last character of the name. *)
Definition suffix (s : string) : string :=
  let cs := String.list_ascii_of_string (name s) in
  match rfind_dot cs with
  | Some i =>
      if decide (0 < i ∧ i < length cs - 1)
      then String.string_of_list_ascii (drop i cs)
      else EmptyString
  | None => EmptyString
  end.

(** [c.lower()] for the letters [A] to [Z]. *)
Definition lower_char (c : ascii) : ascii :=
  let n := nat_of_ascii c in
  if decide (65 ≤ n ∧ n ≤ 90) then ascii_of_nat (n + 32) else c.

(** [s.lower()]; no character beyond [A] to [Z] has [c], [s], [v] or the
    dot as its lower case. *)
Fixpoint lower (s : string) : string :=
  match s with
  | EmptyString => EmptyString
  | String c s' => String (lower_char c) (lower s')
  end.

(** [path_with_suffix(suffix)(s)]; the path is written by its text. *)
Definition path_with_suffix (suffix_arg : string) (s : string)
    : parsed string :=
  if decide (lower (suffix s) = ".csv") then Accepted s
  else ArgumentTypeError
         (s +:+ " is not valid path for a " +:+ suffix_arg +:+ " file").

(** [float(n)] for an [int]: the nearest number with 53 significant bits,
    ties to the even one; it is a whole number, and the conversion raises
    when the result reaches [2^1024]. *)
Definition float_of_int (n : Z) : parsed Z :=
  let a := Z.abs n in
  let shift := (Z.log2 a + 1 - 53)%Z in
  if (shift <=? 0)%Z then Accepted n
  else
    let q := (a / 2 ^ shift)%Z in
    let r := (a mod 2 ^ shift)%Z in
    let half := (2 ^ (shift - 1))%Z in
    let q' :=
      if (half <? r)%Z || ((r =? half)%Z && Z.odd q) then (q + 1)%Z
      else q in
    let v := (q' * 2 ^ shift)%Z in
    if (2 ^ 1024 <=? v)%Z then OverflowError
    else Accepted (Z.sgn n * v)%Z.

(** [positive_int(n)], from the value of [int(n)] on. *)
Definition positive_int (n : Z) : parsed Z :=
  if (0 <? n)%Z then
    match float_of_int n with
    | Accepted x =>
        if (n =? x)%Z then Accepted n
        else ArgumentTypeError (pretty n +:+ " is not valid positive int")
    | ArgumentTypeError m => ArgumentTypeError m
    | OverflowError => OverflowError
    end
  else ArgumentTypeError (pretty n +:+ " is not valid positive int").

End Args.

(** The whole numbers a double holds exactly, among the positive ones: below
    [2^1024], with at most 53 significant bits. *)
Definition representable (n : Z) : Prop :=
  (n < 2 ^ 1024 ∧ n mod 2 ^ Z.max 0 (Z.log2 n - 52) = 0)%Z.

(** *** [main] *)

(** How [main] ends, from the parsed arguments and the table [read_csv]
    returned on: it raises or leaves before the cache is written, it waits
    for a key, or it has written the cache; then [transform] raises, or its
    table is handed to [to_csv]. *)
Inductive run : Type :=
  | RunRaised (e : exn)
  | RunExited
  | RunWaiting
  | RunSaved (file' : cache_file) (df_new : option Pandas.DataFrame).

(** The classification [main] starts the session from. *)
Definition start_setting (df : Pandas.DataFrame)
    (loaded : option FieldsSetting) : FieldsSetting :=
  match loaded with
  | Some fields_setting => fields_setting
  | None => mkFieldsSetting (Pandas.names df) [] []
  end.

(** [main()] for the table [df] read from the input, the cache file as it
    is, the resolved input path, [n_lags] and the keys the user presses. *)
Definition main (df : Pandas.DataFrame) (file : cache_file)
    (input_file_path : string) (n_lags : nat) (keys : list Z) : run :=
  match load_fields_setting file input_file_path with
  | Raise e => RunRaised e
  | Ok loaded =>
      match Session.configure_fields_settings_interactively keys
              (start_setting df loaded) with
      | Session.Failed e => RunRaised e
      | Session.Exited => RunExited
      | Session.Waiting _ => RunWaiting
      | Session.Returned fields_setting =>
          match save_fields_setting file input_file_path fields_setting with
          | Raise e => RunRaised e
          | Ok file' => RunSaved file' (transform df fields_setting n_lags)
          end
      end
  end.

(** *** Properties of the cache and the session used below *)

(** Every entry of the cache is the plain form of a classification, as
    [save_fields_setting] writes it. *)
Definition cache_plain (file : cache_file) : Prop :=
  match file with
  | Stored all_cache =>
      Forall (λ kv, ∃ fs, kv.2 = to_plain fs) all_cache
  | _ => True
  end.

(** The cache after a run of saves. *)
Definition save_all (file : cache_file)
    (saves : list (string * FieldsSetting)) : result cache_file :=
  foldl (λ r kv, file' ← r; save_fields_setting file' kv.1 kv.2)
    (Ok file) saves.

(** Every field has a flag to be drawn with. *)
Definition covered (st : Session.state) : Prop :=
  ∀ f, f ∈ Session.all_fields st →
    f ∈ Session.fields_to_window st ∨ f ∈ Session.fields_to_drop st
    ∨ f ∈ Session.fields_to_keep st.

(** What a marking key does to the sets, for the field [f] under the
    cursor. *)
Definition marked (st st' : Session.state) (f : string)
    (in_window in_drop in_keep : Prop) : Prop :=
  (f ∈ Session.fields_to_window st' ↔ in_window)
  ∧ (f ∈ Session.fields_to_drop st' ↔ in_drop)
  ∧ (f ∈ Session.fields_to_keep st' ↔ in_keep)
  ∧ ∀ g, g ≠ f →
      (g ∈ Session.fields_to_window st' ↔ g ∈ Session.fields_to_window st)
      ∧ (g ∈ Session.fields_to_drop st' ↔ g ∈ Session.fields_to_drop st)
      ∧ (g ∈ Session.fields_to_keep st' ↔ g ∈ Session.fields_to_keep st).

(** A table with two columns, and a cache entry for it that lists a column
    the table does not have. *)
Definition table_two : Pandas.DataFrame :=
  Pandas.mkDataFrame 2
    [("a", [Some "1"; Some "2"]); ("b", [Some "3"; None])].


(** ** Tables with row labels *)

(** [read_csv] gives a table the default index [RangeIndex(len)] when no
    data row has more fields than the header; when the data rows have one
    field more, the first field of every row becomes the label of the row.
    The frames of [Pandas] above are the frames with the default index.
    [Labelled] is the same part of the library with the row labels written
    out: the assignment of a column aligns the value by label, not by
    position. *)
Module Labelled.

(** A row label: a whole number, as in a [RangeIndex], or text. *)
Inductive label : Type :=
  | LInt (n : Z)
  | LStr (s : string).

Global Instance label_eq_dec : EqDecision label.
Proof. solve_decision. Defined.

(** [RangeIndex(n)] *)
Definition range_index (n : nat) : list label :=
  (λ i, LInt (Z.of_nat i)) <$> seq 0 n.

(** A series: its labels and its values, one value for every label. *)
Record Series : Type := mkSeries {
  s_index : list label;
  s_values : list (option string)
}.

(** A frame: the labels of its rows and its columns in order. *)
Record DataFrame : Type := mkDataFrame {
  index : list label;
  columns : list (string * list (option string))
}.

(** [pd.DataFrame(dtype=str)] *)
Definition empty_frame : DataFrame := mkDataFrame [] [].

(** [len(df)] *)
Definition len (df : DataFrame) : nat := length (index df).

(** [list(df.columns)] *)
Definition names (df : DataFrame) : list string := (columns df).*1.

(** The values of the column [key], if there is one. *)
Definition column (df : DataFrame) (key : string)
  : option (list (option string)) :=
  dict_get key (columns df).

(** [df[key]]: the column with the labels of the frame. *)
Definition getitem (df : DataFrame) (key : string) : result Series :=
  match column df key with
  | Some values => Ok (mkSeries (index df) values)
  | None => Raise (KeyError key)
  end.

(** [pd.Series([None] * i, dtype=str).append(s[:stop], ignore_index=True)]:
    the slice is by position, and the result has the default index. *)
Definition lag_value (i : nat) (stop : Z) (s : Series) : Series :=
  let values :=
    Pandas.append_ignore_index (replicate i None)
      (Pandas.slice_to stop (s_values s)) in
  mkSeries (range_index (length values)) values.

(** [index.get_loc(l)] on distinct labels: the position of [l]. *)
Fixpoint get_loc (l : label) (labels : list label) : option nat :=
  match labels with
  | [] => None
  | l' :: labels' =>
      if decide (l' = l) then Some 0 else S <$> get_loc l labels'
  end.

(** [s.reindex(target)] for a series with distinct labels: for every
    label of [target] the value [s] has under it, the missing marker
    where [s] lacks the label. *)
Definition reindex (target : list label) (s : Series)
  : list (option string) :=
  (λ l, default None (get_loc l (s_index s) ≫= λ i, s_values s !! i))
    <$> target.

(** [DataFrame._ensure_valid_index]: a frame whose index is still empty
    takes the index of the first non-empty value assigned to it, and the
    columns it already has are reindexed to it. *)
Definition ensure_valid_index (df : DataFrame) (value : Series)
  : DataFrame :=
  if decide (index df = [] ∧ 0 < length (s_values value))
  then mkDataFrame (s_index value)
         (prod_map id (λ c, reindex (s_index value) (mkSeries (index df) c))
            <$> columns df)
  else df.

(** The alignment of an assigned series: its values as they are when its
    index is the index of the frame or the frame has no rows, its values
    by label otherwise; a series with repeated labels cannot be
    reindexed. *)
Definition reindex_for_setitem (value : Series) (df : DataFrame)
  : result (list (option string)) :=
  if decide (s_index value = index df ∨ index df = [])
  then Ok (s_values value)
  else if decide (NoDup (s_index value))
       then Ok (reindex (index df) value)
       else Raise ValueError.

(** [df[key] = value] for a series [value] *)
Definition setitem (df : DataFrame) (key : string) (value : Series)
  : result DataFrame :=
  let df' := ensure_valid_index df value in
  values ← reindex_for_setitem value df';
  mret (mkDataFrame (index df') (dict_set key values (columns df'))).

(** The body of [for i in range(n_lags)]. *)
Fixpoint transform_lags (df : DataFrame) (f : string) (lags : list nat)
    (df_new : DataFrame) : result DataFrame :=
  match lags with
  | [] => Ok df_new
  | i :: lags' =>
      col ← getitem df f;
      let value := lag_value i (Z.of_nat (len df) - Z.of_nat i) col in
      df_new' ← setitem df_new (new_field f i) value;
      transform_lags df f lags' df_new'
  end.

(** The body of [for f in fields_setting.all_fields]. *)
Fixpoint transform_fields (df : DataFrame)
    (_fields_to_window _fields_to_drop : gset string) (n_lags : nat)
    (fields : list string) (df_new : DataFrame) : result DataFrame :=
  match fields with
  | [] => Ok df_new
  | f :: fields' =>
      if decide (f ∈ _fields_to_window) then
        df_new' ← transform_lags df f (seq 0 n_lags) df_new;
        transform_fields df _fields_to_window _fields_to_drop n_lags
          fields' df_new'
      else if decide (f ∈ _fields_to_drop) then
        transform_fields df _fields_to_window _fields_to_drop n_lags
          fields' df_new
      else
        col ← getitem df f;
        df_new' ← setitem df_new f col;
        transform_fields df _fields_to_window _fields_to_drop n_lags
          fields' df_new'
  end.

(** [transform(df, fields_setting, n_lags)] on a table with row labels. *)
Definition transform (df : DataFrame) (fields_setting : FieldsSetting)
    (n_lags : nat) : result DataFrame :=
  let _fields_to_window : gset string :=
    list_to_set (fields_to_window fields_setting) in
  let _fields_to_drop : gset string :=
    list_to_set (fields_to_drop fields_setting) in
  transform_fields df _fields_to_window _fields_to_drop n_lags
    (all_fields fields_setting) empty_frame.

(** Distinct column names, every column as long as the index. *)
Definition wf (df : DataFrame) : Prop :=
  NoDup (names df) ∧ Forall (λ c, length c.2 = len df) (columns df).

Global Instance wf_dec df : Decision (wf df).
Proof. unfold wf. apply _. Defined.

(** The rows are labelled by their positions. *)
Definition default_index (df : DataFrame) : Prop :=
  index df = range_index (len df).

Global Instance default_index_dec df : Decision (default_index df).
Proof. unfold default_index. apply _. Defined.

(** A frame of [Pandas] with its labels written out, and a frame without
    its labels. *)
Definition of_default (df : Pandas.DataFrame) : DataFrame :=
  mkDataFrame (range_index (Pandas.index_len df)) (Pandas.columns df).

Definition positional (df : DataFrame) : Pandas.DataFrame :=
  Pandas.mkDataFrame (len df) (columns df).

(** The classification speaks of columns of the table. *)
Definition fields_in_table (df : DataFrame) (fs : FieldsSetting) : Prop :=
  Forall (λ f, is_Some (column df f)) (all_fields fs).

Global Instance fields_in_table_dec df fs : Decision (fields_in_table df fs).
Proof. unfold fields_in_table. apply _. Defined.

End Labelled.

(** Every windowed field has its [n_lags] columns, each the shifted source
    column. *)
Definition lag_columns_labelled (df : Labelled.DataFrame)
    (fs : FieldsSetting) (n_lags : nat) : Prop :=
  ∃ out, Labelled.transform df fs n_lags = Ok out
    ∧ ∀ f col, windowed fs f → Labelled.column df f = Some col →
        NoDup (new_field f <$> seq 0 n_lags)
        ∧ ∀ i, i < n_lags →
            ∃ s, Labelled.column out (new_field f i) = Some s
                 ∧ lag_column (Labelled.positional df) col i s.

(** The kept fields are columns of the output, in their order, with the
    contents of the source. *)
Definition kept_fields_labelled (df : Labelled.DataFrame)
    (fs : FieldsSetting) (n_lags : nat) : Prop :=
  ∃ out, Labelled.transform df fs n_lags = Ok out
    ∧ filter (kept fs) (Labelled.names out) = filter (kept fs) (all_fields fs)
    ∧ ∀ f, kept fs f → Labelled.column out f = Labelled.column df f.

(** A classification with [f] taken out of the fields to drop. *)
Definition undrop (fs : FieldsSetting) (f : string) : FieldsSetting :=
  mkFieldsSetting (all_fields fs) (fields_to_window fs)
    (filter (λ g, g ≠ f) (fields_to_drop fs)).

(** A run of the script agrees with a run on the labelled table. *)
Definition agrees (r : result Labelled.DataFrame)
    (o : option Pandas.DataFrame) : Prop :=
  match o with
  | Some out => r = Ok (Labelled.of_default out)
  | None => ∃ key, r = Raise (KeyError key)
  end.

(** The table read from a file with the header [id,A] and the data rows
    [4,a,1] and [8,b,2]: every data row has one field more than the
    header, and the rows are labelled 4 and 8. *)
Definition table_labelled : Labelled.DataFrame :=
  Labelled.mkDataFrame [Labelled.LInt 4; Labelled.LInt 8]
    [("id", [Some "a"; Some "b"]); ("A", [Some "1"; Some "2"])].

(** [A] windowed and listed before the kept field [id]. *)
Definition window_A_keep_id : FieldsSetting :=
  mkFieldsSetting ["A"; "id"] ["A"] [].

(** ** Facts about dictionaries *)

Section dict_facts.
Context {V : Type}.
Implicit Types (d : list (string * V)) (key k : string) (v w : V).

Lemma dict_get_Some_elem key v d :
  dict_get key d = Some v → (key, v) ∈ d.
Proof.
  induction d as [|[k w] d IH]; simpl; [done|].
  case_decide; intros ?; simplify_eq; [left | right; auto].
Qed.

Lemma dict_get_NoDup key v d :
  NoDup d.*1 → (key, v) ∈ d → dict_get key d = Some v.
Proof.
  induction d as [|[k w] d IH]; simpl; intros Hnd Hin.
  - by apply elem_of_nil in Hin.
  - apply NoDup_cons in Hnd as [Hk Hnd].
    apply elem_of_cons in Hin as [?|Hin]; simplify_eq.
    + by rewrite decide_True.
    + rewrite decide_False; [auto|].
      intros ->. apply Hk. apply list_elem_of_fmap. by exists (key, v).
Qed.

Lemma dict_get_is_Some key d :
  is_Some (dict_get key d) ↔ key ∈ d.*1.
Proof.
  induction d as [|[k w] d IH]; simpl.
  - split; [by intros [? ?] | by intros ?%elem_of_nil].
  - case_decide; subst.
    + split; [intros _; left | eauto].
    + rewrite IH, elem_of_cons. split; [by right | by intros [?|?]].
Qed.

Lemma dict_set_names key v d :
  (dict_set key v d).*1 = assign_name key d.*1.
Proof.
  unfold assign_name. induction d as [|[k w] d IH]; csimpl; [done|].
  destruct (decide (k = key)) as [->|Hk]; csimpl.
  - rewrite decide_True; [done | left].
  - rewrite IH. destruct (decide (key ∈ d.*1)) as [Hin|Hin].
    + rewrite decide_True; [done | by right].
    + rewrite decide_False; [done|].
      intros [?|?]%elem_of_cons; [by subst | done].
Qed.

Lemma dict_set_fresh key v d :
  key ∉ d.*1 → dict_set key v d = d ++ [(key, v)].
Proof.
  induction d as [|[k w] d IH]; simpl; [done|].
  intros Hk. apply not_elem_of_cons in Hk as [? ?].
  rewrite decide_False by done. by rewrite IH.
Qed.

Lemma dict_get_set_eq key v d : dict_get key (dict_set key v d) = Some v.
Proof.
  induction d as [|[k w] d IH]; simpl.
  - by rewrite decide_True.
  - destruct (decide (k = key)) as [->|Hk]; simpl.
    + by rewrite decide_True.
    + by rewrite decide_False.
Qed.

Lemma dict_get_set_ne key key' v d :
  key ≠ key' → dict_get key' (dict_set key v d) = dict_get key' d.
Proof.
  intros Hne. induction d as [|[k w] d IH]; simpl.
  - by rewrite decide_False.
  - destruct (decide (k = key)) as [->|Hk]; simpl.
    + by rewrite !decide_False.
    + by rewrite IH.
Qed.

Lemma dict_set_NoDup key v d : NoDup d.*1 → NoDup (dict_set key v d).*1.
Proof.
  intros Hnd. rewrite dict_set_names. unfold assign_name.
  case_decide as Hin; [done|].
  apply NoDup_app. split_and!; [done| |apply NoDup_singleton].
  intros x Hx ->%list_elem_of_singleton. done.
Qed.

Lemma dict_get_Some_NoDup key v d :
  NoDup d.*1 → dict_get key d = Some v ↔ (key, v) ∈ d.
Proof.
  intros Hnd. split; [apply dict_get_Some_elem | by apply dict_get_NoDup].
Qed.

Lemma dict_get_None key d : dict_get key d = None ↔ key ∉ d.*1.
Proof.
  rewrite <- dict_get_is_Some. rewrite eq_None_not_Some. done.
Qed.

End dict_facts.

(** ** Facts about the table operations *)

Section pandas_facts.
Import Pandas.
Implicit Types (s t col value : Series) (cols : list (string * Series)).
Implicit Types (df d : DataFrame) (key k : string).

Lemma reindex_length n s : length (reindex n s) = n.
Proof.
  unfold reindex. rewrite length_app, length_take, length_replicate. lia.
Qed.

Lemma reindex_id n s : length s = n → reindex n s = s.
Proof.
  intros <-. unfold reindex.
  rewrite take_ge by lia. rewrite Nat.sub_diag. apply app_nil_r.
Qed.

Lemma reindex_long n s : n ≤ length s → reindex n s = take n s.
Proof.
  intros Hn. unfold reindex.
  replace (n - length s) with 0 by lia. apply app_nil_r.
Qed.

Lemma getitem_length df key s :
  wf df → getitem df key = Some s → length s = index_len df.
Proof.
  intros [_ Hlen] Hs. apply dict_get_Some_elem in Hs.
  by apply (proj1 (Forall_forall _ _) Hlen (key, s)).
Qed.

Lemma ensure_valid_index_names df value :
  names (ensure_valid_index df value) = names df.
Proof.
  unfold ensure_valid_index, names. case_decide; [|done]. simpl.
  rewrite <- list_fmap_compose. apply list_fmap_ext. by intros ? [? ?].
Qed.

Lemma setitem_names df key value :
  names (setitem df key value) = assign_name key (names df).
Proof.
  unfold setitem, names at 1. simpl. rewrite dict_set_names.
  f_equal. apply ensure_valid_index_names.
Qed.

Lemma setitem_first n key value :
  0 < n → length value = n →
  setitem empty_frame key value = mkDataFrame n [(key, value)].
Proof.
  intros Hn Hv. unfold setitem, ensure_valid_index. simpl.
  rewrite decide_True by lia. simpl. rewrite Hv.
  by rewrite reindex_id.
Qed.

Lemma setitem_indexed n d key value :
  0 < n → index_len d = n →
  setitem d key value
  = mkDataFrame n (dict_set key (reindex n value) (columns d)).
Proof.
  intros Hn Hd. unfold setitem, ensure_valid_index.
  rewrite decide_False by lia. by rewrite Hd.
Qed.

Lemma setitem_fits n d key value :
  0 < n → fits n d → length value = n →
  setitem d key value
  = mkDataFrame n (dict_set key value (columns d)).
Proof.
  intros Hn [->|Hd] Hv.
  - by apply setitem_first.
  - rewrite (setitem_indexed n) by done. by rewrite reindex_id.
Qed.

End pandas_facts.

Section transform_facts.
Import Pandas.
Implicit Types (col value : Series) (cols asg : list (string * Series)).
Implicit Types (df d out : DataFrame) (f key : string) (W D : gset string).

Lemma shifted_length i col : length (shifted i col) = length col.
Proof.
  unfold shifted. rewrite length_take, length_app, length_replicate. lia.
Qed.

Lemma shifted_head i col r :
  r < i → r < length col → shifted i col !! r = Some None.
Proof.
  intros Hi Hr. unfold shifted.
  rewrite lookup_take_lt by done.
  rewrite lookup_app_l by (rewrite length_replicate; lia).
  by apply lookup_replicate_2.
Qed.

Lemma shifted_tail i col r :
  i ≤ r → r < length col → shifted i col !! r = col !! (r - i).
Proof.
  intros Hi Hr. unfold shifted.
  rewrite lookup_take_lt by done.
  rewrite lookup_app_r by (rewrite length_replicate; lia).
  by rewrite length_replicate.
Qed.

Lemma shifted_0 col : shifted 0 col = col.
Proof. unfold shifted. simpl. by apply take_ge. Qed.

(** The value [transform] assigns for lag [i], once aligned to the index
    of a table of [length col] rows, is the shifted column. *)
Lemma lag_value_reindex i col :
  reindex (length col)
    (append_ignore_index (replicate i None)
       (slice_to (Z.of_nat (length col) - Z.of_nat i) col))
  = shifted i col.
Proof.
  unfold append_ignore_index, slice_to, shifted.
  destruct (Z.leb_spec 0 (Z.of_nat (length col) - Z.of_nat i)) as [Hle|Hlt].
  - replace (Z.to_nat (Z.of_nat (length col) - Z.of_nat i))
      with (length col - i) by lia.
    rewrite reindex_id.
    + rewrite take_app, length_replicate.
      rewrite (take_ge (replicate i None))
        by (rewrite length_replicate; lia). done.
    + rewrite length_app, length_replicate, length_take. lia.
  - rewrite reindex_long by (rewrite length_app, length_replicate; lia).
    rewrite !take_app_le by (rewrite length_replicate; lia). done.
Qed.

Lemma lag_value_0_length col :
  length (append_ignore_index (replicate 0 None)
            (slice_to (Z.of_nat (length col) - Z.of_nat 0) col))
  = length col.
Proof.
  unfold append_ignore_index, slice_to. simpl.
  rewrite Z.sub_0_r. destruct (Z.leb_spec 0 (Z.of_nat (length col))); [|lia].
  rewrite Nat2Z.id. by rewrite take_ge.
Qed.

Lemma setitem_aligned n d key value :
  0 < n →
  index_len d = n ∨ (d = empty_frame ∧ length value = n) →
  setitem d key value
  = mkDataFrame n (dict_set key (reindex n value) (columns d)).
Proof.
  intros Hn [Hd|[-> Hv]].
  - by apply setitem_indexed.
  - rewrite (setitem_first n) by done. simpl. by rewrite reindex_id.
Qed.

Lemma assign_all_fresh cols asg :
  NoDup (cols.*1 ++ asg.*1) → assign_all cols asg = cols ++ asg.
Proof.
  revert cols. induction asg as [|[k v] asg IH]; intros cols Hnd; csimpl.
  - by rewrite app_nil_r.
  - unfold assign_all in *. csimpl.
    assert (k ∉ cols.*1) as Hk.
    { apply NoDup_app in Hnd as (_ & Hd & _). intros Hin.
      apply (Hd k Hin). left. }
    rewrite dict_set_fresh by done. rewrite IH.
    + by rewrite <- app_assoc.
    + rewrite fmap_app. csimpl. by rewrite <- app_assoc.
Qed.


Lemma assign_names_app ns keys1 keys2 :
  assign_names ns (keys1 ++ keys2)
  = assign_names (assign_names ns keys1) keys2.
Proof. apply foldl_app. Qed.

Lemma assign_all_app cols asg1 asg2 :
  assign_all cols (asg1 ++ asg2) = assign_all (assign_all cols asg1) asg2.
Proof. apply foldl_app. Qed.

Lemma field_columns_windowed W D n f :
  f ∈ W → field_columns W D n f = new_field f <$> seq 0 n.
Proof. intros ?. unfold field_columns. by rewrite decide_True. Qed.

Lemma field_columns_dropped W D n f :
  f ∉ W → f ∈ D → field_columns W D n f = [].
Proof.
  intros ??. unfold field_columns.
  rewrite decide_False by done. by rewrite decide_True.
Qed.

Lemma field_columns_kept W D n f :
  f ∉ W → f ∉ D → field_columns W D n f = [f].
Proof. intros ??. unfold field_columns. by rewrite !decide_False. Qed.

Lemma field_assignments_windowed df W D n f col :
  getitem df f = Some col → f ∈ W →
  field_assignments df W D n f
  = (λ i, (new_field f i, shifted i col)) <$> seq 0 n.
Proof.
  intros Hcol ?. unfold field_assignments. rewrite Hcol.
  by rewrite decide_True.
Qed.

Lemma field_assignments_dropped df W D n f :
  f ∉ W → f ∈ D → field_assignments df W D n f = [].
Proof.
  intros ??. unfold field_assignments. destruct (getitem df f); [|done].
  rewrite decide_False by done. by rewrite decide_True.
Qed.

Lemma field_assignments_kept df W D n f col :
  getitem df f = Some col → f ∉ W → f ∉ D →
  field_assignments df W D n f = [(f, col)].
Proof.
  intros Hcol ??. unfold field_assignments. rewrite Hcol.
  by rewrite !decide_False.
Qed.

(** *** The loops, for names only *)

Lemma transform_lags_names df f lags d out :
  transform_lags df f lags d = Some out →
  names out = assign_names (names d) (new_field f <$> lags).
Proof.
  revert d. induction lags as [|i lags IH]; intros d; csimpl.
  - by intros [= ->].
  - destruct (getitem df f) as [col|]; csimpl; [|done].
    intros Hout%IH. by rewrite Hout, setitem_names.
Qed.

Lemma transform_fields_names df W D n fields d out :
  transform_fields df W D n fields d = Some out →
  names out = assign_names (names d) (fields ≫= field_columns W D n).
Proof.
  revert d. induction fields as [|f fields IH]; intros d; csimpl.
  - by intros [= ->].
  - rewrite assign_names_app. destruct (decide (f ∈ W)).
    + rewrite field_columns_windowed by done.
      destruct (transform_lags df f (seq 0 n) d) as [d1|] eqn:Hd1;
        csimpl; [|done].
      intros Hout%IH. apply transform_lags_names in Hd1.
      by rewrite Hout, Hd1.
    + destruct (decide (f ∈ D)).
      * rewrite field_columns_dropped by done. apply IH.
      * rewrite field_columns_kept by done.
        destruct (getitem df f) as [col|]; csimpl; [|done].
        intros Hout%IH. by rewrite Hout, setitem_names.
Qed.



(** *** The loops, with the contents, for a table that has rows *)

Lemma transform_lags_columns df f col a n d :
  wf df → 0 < index_len df →
  getitem df f = Some col →
  index_len d = index_len df ∨ (d = empty_frame ∧ a = 0) →
  ∃ out, transform_lags df f (seq a n) d = Some out
         ∧ fits (index_len df) out
         ∧ columns out
           = assign_all (columns d)
               ((λ i, (new_field f i, shifted i col)) <$> seq a n).
Proof.
  intros Hwf Hpos Hcol. pose proof (getitem_length _ _ _ Hwf Hcol) as Hlen.
  rewrite <- Hlen in Hpos |- *.
  revert a d. induction n as [|n IH]; intros a d Hd; csimpl.
  - exists d. split; [done|]. split; [|done].
    destruct Hd as [?|[? _]]; [by right | by left].
  - rewrite Hcol. csimpl. unfold len. rewrite <- Hlen.
    rewrite (setitem_aligned (length col)); [|done|].
    + rewrite lag_value_reindex.
      edestruct (IH (S a)) as (out & -> & Hfit & Hout); [by left|].
      by exists out.
    + destruct Hd as [?|[-> ->]]; [by left|right].
      split; [done|]. apply lag_value_0_length.
Qed.

Lemma transform_fields_columns df W D n fields d :
  wf df → 0 < index_len df →
  (∀ f, f ∈ fields → is_Some (getitem df f)) →
  fits (index_len df) d →
  ∃ out, transform_fields df W D n fields d = Some out
         ∧ fits (index_len df) out
         ∧ columns out
           = assign_all (columns d) (fields ≫= field_assignments df W D n).
Proof.
  intros Hwf Hpos. revert d.
  induction fields as [|f fields IH]; intros d Hin Hd; csimpl.
  - by exists d.
  - destruct (Hin f) as [col Hcol]; [left|].
    assert (∀ g, g ∈ fields → is_Some (getitem df g)) as Hin'
      by (intros g Hg; apply Hin; by right).
    rewrite assign_all_app.
    destruct (decide (f ∈ W)).
    + rewrite (field_assignments_windowed _ _ _ _ _ col) by done.
      destruct (transform_lags_columns df f col 0 n d Hwf Hpos Hcol)
        as (d1 & -> & Hfit1 & Hd1).
      { destruct Hd as [->|?]; [by right | by left]. }
      csimpl. destruct (IH d1 Hin' Hfit1) as (out & -> & Hfit & Hout).
      exists out. by rewrite Hout, Hd1.
    + destruct (decide (f ∈ D)).
      * rewrite field_assignments_dropped by done.
        destruct (IH d Hin' Hd) as (out & -> & Hfit & Hout). by exists out.
      * rewrite (field_assignments_kept _ _ _ _ _ col) by done.
        rewrite Hcol. csimpl.
        pose proof (getitem_length _ _ _ Hwf Hcol) as Hlen.
        rewrite (setitem_fits (index_len df)) by done.
        edestruct IH as (out & -> & Hfit & Hout); [done|by right|].
        by exists out.
Qed.

Lemma field_assignments_names df W D n f :
  is_Some (getitem df f) →
  (field_assignments df W D n f).*1 = field_columns W D n f.
Proof.
  intros [col Hcol]. unfold field_assignments, field_columns. rewrite Hcol.
  repeat case_decide; [|done..].
  rewrite <- list_fmap_compose. by apply list_fmap_ext.
Qed.

Lemma assignments_names df W D n fields :
  (∀ f, f ∈ fields → is_Some (getitem df f)) →
  (fields ≫= field_assignments df W D n).*1 = fields ≫= field_columns W D n.
Proof.
  induction fields as [|f fields IH]; intros Hin; csimpl; [done|].
  rewrite fmap_app, field_assignments_names by (apply Hin; left).
  rewrite IH; [done|]. intros g Hg. apply Hin. by right.
Qed.

End transform_facts.

(** ** The derived table *)

Section transform_theorems.
Import Pandas.
Implicit Types (df d out : DataFrame) (fs : FieldsSetting) (f g : string).

Global Instance new_field_inj f : Inj (=) (=) (new_field f).
Proof.
  intros i j Hij. unfold new_field in Hij.
  apply (inj (String.app f)) in Hij.
  apply (inj (String.app "_T-")) in Hij.
  by apply (inj pretty) in Hij.
Qed.

Lemma new_field_NoDup f n : NoDup (new_field f <$> seq 0 n).
Proof. apply (NoDup_fmap_2 _). apply NoDup_seq. Qed.

Lemma fields_in_table_elem df fs f :
  fields_in_table df fs → f ∈ all_fields fs → is_Some (getitem df f).
Proof. intros Hin. by apply (proj1 (Forall_forall _ _) Hin). Qed.

Lemma transform_names df fs n out :
  transform df fs n = Some out →
  names out = assign_names [] (output_columns fs n).
Proof. apply transform_fields_names. Qed.



Lemma output_assignments_names df fs n :
  fields_in_table df fs →
  (output_assignments df fs n).*1 = output_columns fs n.
Proof.
  intros Hin. apply assignments_names.
  intros f. by apply fields_in_table_elem.
Qed.

Lemma transform_columns df fs n :
  wf df → 0 < index_len df →
  fields_in_table df fs → NoDup (output_columns fs n) →
  ∃ out, transform df fs n = Some out
         ∧ columns out = output_assignments df fs n.
Proof.
  intros Hwf Hpos Hin Hnd.
  destruct (transform_fields_columns df
              (list_to_set (fields_to_window fs))
              (list_to_set (fields_to_drop fs)) n (all_fields fs)
              empty_frame Hwf Hpos) as (out & Hout & _ & Hcols).
  { intros f. by apply fields_in_table_elem. }
  { by left. }
  exists out. split; [done|].
  rewrite Hcols. simpl. rewrite assign_all_fresh; [done|]. simpl.
  fold (output_assignments df fs n). by rewrite output_assignments_names.
Qed.

Lemma windowed_assignment df fs n f col i :
  windowed fs f → getitem df f = Some col → i < n →
  (new_field f i, shifted i col) ∈ output_assignments df fs n.
Proof.
  intros [Hf Hw] Hcol Hi. apply list_elem_of_bind. exists f.
  split; [|done].
  rewrite (field_assignments_windowed _ _ _ _ _ col);
    [|done|by apply elem_of_list_to_set].
  apply list_elem_of_fmap. exists i. split; [done|].
  apply elem_of_seq. lia.
Qed.

Lemma kept_assignment df fs n f col :
  kept fs f → getitem df f = Some col →
  (f, col) ∈ output_assignments df fs n.
Proof.
  intros (Hf & Hw & Hd) Hcol. apply list_elem_of_bind. exists f.
  split; [|done].
  rewrite (field_assignments_kept _ _ _ _ _ col);
    [left|done|by rewrite elem_of_list_to_set..].
Qed.

Lemma output_columns_elem fs n c :
  c ∈ output_columns fs n ↔
  (∃ g i, windowed fs g ∧ i < n ∧ c = new_field g i) ∨ kept fs c.
Proof.
  unfold output_columns. rewrite list_elem_of_bind. split.
  - intros (g & Hc & Hg). unfold field_columns in Hc.
    destruct (decide (g ∈ _)) as [Hw|Hw]; rewrite elem_of_list_to_set in Hw.
    + apply list_elem_of_fmap in Hc as (i & -> & Hi%elem_of_seq).
      left. exists g, i. split; [by split|]. split; [lia|done].
    + destruct (decide (g ∈ _)) as [Hd|Hd];
        rewrite elem_of_list_to_set in Hd.
      * by apply elem_of_nil in Hc.
      * apply list_elem_of_singleton in Hc as ->. by right.
  - intros [(g & i & [Hg Hw] & Hi & ->)|(Hc & Hw & Hd)].
    + exists g. split; [|done].
      rewrite field_columns_windowed by by apply elem_of_list_to_set.
      apply list_elem_of_fmap. exists i. split; [done|].
      apply elem_of_seq. lia.
    + exists c. split; [|done].
      rewrite field_columns_kept by by rewrite elem_of_list_to_set.
      left.
Qed.

(** Two fields that stand for a common name are the same field, when the
    output names are distinct. *)
Lemma bind_NoDup_same {A B} (h : A → list B) (l : list A) x y c :
  NoDup (l ≫= h) → x ∈ l → y ∈ l → c ∈ h x → c ∈ h y → x = y.
Proof.
  induction l as [|a l IH]; csimpl; intros Hnd Hx Hy Hcx Hcy.
  - by apply elem_of_nil in Hx.
  - apply NoDup_app in Hnd as (_ & Hdisj & Hnd).
    apply elem_of_cons in Hx as [->|Hx];
      apply elem_of_cons in Hy as [->|Hy]; [done| | |by apply IH].
    + exfalso. apply (Hdisj c Hcx). apply list_elem_of_bind. by exists y.
    + exfalso. apply (Hdisj c Hcy). apply list_elem_of_bind. by exists x.
Qed.

Lemma filter_none {A} (P : A → Prop) `{!∀ x, Decision (P x)} (l : list A) :
  (∀ x, x ∈ l → ¬ P x) → filter P l = [].
Proof.
  induction l as [|a l IH]; intros Hl; [done|].
  rewrite filter_cons_False by (apply Hl; left).
  apply IH. intros x Hx. apply Hl. by right.
Qed.

Lemma filter_bind_singletons {A} (P : A → Prop) `{!∀ x, Decision (P x)}
    (h : A → list A) (l : list A) :
  (∀ x, x ∈ l → filter P (h x) = filter P [x]) →
  filter P (l ≫= h) = filter P l.
Proof.
  induction l as [|a l IH]; intros Hl; csimpl; [done|].
  rewrite filter_app, Hl by left.
  rewrite IH by (intros x Hx; apply Hl; by right).
  by rewrite <- filter_app.
Qed.

Lemma filter_kept_output_columns fs n :
  NoDup (output_columns fs n) →
  filter (kept fs) (output_columns fs n) = filter (kept fs) (all_fields fs).
Proof.
  intros Hnd. apply filter_bind_singletons. intros f Hf.
  unfold field_columns.
  destruct (decide (f ∈ _)) as [Hw|Hw].
  - pose proof (proj1 (elem_of_list_to_set _ _) Hw) as Hw'.
    rewrite (filter_singleton_False _ f []) by (by intros (_ & ? & _)).
    apply filter_none. intros c Hc (Hcf & Hcw & Hcd).
    assert (f = c) as ->; [|done].
    apply (bind_NoDup_same _ _ f c c Hnd Hf Hcf).
    + by rewrite field_columns_windowed.
    + rewrite field_columns_kept by by rewrite elem_of_list_to_set.
      left.
  - destruct (decide (f ∈ _)) as [Hd|Hd]; [|done].
    pose proof (proj1 (elem_of_list_to_set _ _) Hd) as Hd'.
    by rewrite (filter_singleton_False _ f []) by (by intros (_ & _ & ?)).
Qed.

End transform_theorems.

(** ** The claims about [transform] *)

Section transform_claims.
Import Pandas.
Implicit Types (df d out : DataFrame) (fs : FieldsSetting) (f g : string).

Example transform_table_A :
  transform table_A window_A 2
  = Some (mkDataFrame 3
            [("A_T-0", [Some "1"; Some "2"; Some "3"]);
             ("A_T-1", [None; Some "1"; Some "2"])]).
Proof. vm_compute. reflexivity. Qed.

Example transform_id_value :
  transform table_id_value keep_id_window_value 1
  = Some (mkDataFrame 2
            [("id", [Some "a"; Some "b"]); ("value_T-0", [Some "10"; None])]).
Proof. vm_compute. reflexivity. Qed.

(** A lag beyond the length of the table gives a column of missing
    markers of the length of the table. *)
Example transform_long_lag :
  transform table_A_lag (mkFieldsSetting ["A"] ["A"] []) 4
  = Some (mkDataFrame 2
            [("A_T-0", [Some "1"; Some "2"]); ("A_T-1", [None; Some "1"]);
             ("A_T-2", [None; None]); ("A_T-3", [None; None])]).
Proof. vm_compute. reflexivity. Qed.

(** A table without rows: the first non-empty value, the lag 1 column of
    one missing marker, gives the output its index, and the columns
    assigned before are filled up to it. *)
Example transform_no_rows :
  transform table_no_rows keep_id_window_A 2
  = Some (mkDataFrame 1
            [("id", [None]); ("A_T-0", [None]); ("A_T-1", [None])]).
Proof. vm_compute. reflexivity. Qed.

(** Hence the row condition of the two theorems on contents below. *)
Lemma lag_columns_spec_no_rows :
  wf table_no_rows ∧ fields_in_table table_no_rows keep_id_window_A
  ∧ NoDup (output_columns keep_id_window_A 2)
  ∧ ¬ lag_columns_spec table_no_rows keep_id_window_A 2.
Proof.
  split_and!; [compute_done..|].
  intros (out & Hout & Hspec).
  vm_compute in Hout. injection Hout as <-.
  destruct (Hspec "A" []) as [_ Hlag]; [split; compute_done|reflexivity|].
  destruct (Hlag 0) as (s & Hs & Hlen & _); [lia|].
  vm_compute in Hs. injection Hs as <-. discriminate Hlen.
Qed.

Lemma kept_fields_spec_no_rows :
  ¬ kept_fields_spec table_no_rows keep_id_window_A 2.
Proof.
  intros (out & Hout & _ & Hval).
  vm_compute in Hout. injection Hout as <-.
  assert (kept keep_id_window_A "id") as Hkept by compute_done.
  specialize (Hval "id" Hkept). vm_compute in Hval.
  discriminate Hval.
Qed.

(** On the frames with the default index: for a table with at least one
    row whose columns include all fields, and a classification whose
    output names are pairwise distinct, every windowed field has its
    [n_lags] lag columns. *)
Lemma lag_columns_aligned df fs n_lags :
  wf df → 0 < len df → fields_in_table df fs →
  NoDup (output_columns fs n_lags) →
  lag_columns_spec df fs n_lags.
Proof.
  intros Hwf Hpos Hin Hnd.
  destruct (transform_columns df fs n_lags Hwf Hpos Hin Hnd)
    as (out & Hout & Hcols).
  exists out. split; [done|]. intros f col Hf Hcol.
  split; [apply new_field_NoDup|]. intros i Hi.
  pose proof (getitem_length _ _ _ Hwf Hcol) as Hlen.
  exists (shifted i col). split.
  - unfold getitem. rewrite Hcols. apply dict_get_NoDup.
    + by rewrite output_assignments_names.
    + by apply windowed_assignment.
  - unfold lag_column, len. rewrite <- Hlen. split_and!.
    + apply shifted_length.
    + intros r. apply shifted_head.
    + intros r. apply shifted_tail.
    + intros ->. apply shifted_0.
Qed.


(** The name of a dropped field is a column of the output when a windowed
    field generates it, also when the output names are distinct. *)
Example dropped_name_generated :
  dropped window_A_drop_lag "A_T-0"
  ∧ NoDup (output_columns window_A_drop_lag 1)
  ∧ transform table_A_lag window_A_drop_lag 1
    = Some (mkDataFrame 2 [("A_T-0", [Some "1"; Some "2"])]).
Proof. split_and!; [compute_done..|]. vm_compute. reflexivity. Qed.



(** On the frames with the default index: the kept fields are columns
    of the output, in their order, with the contents of the source. *)
Lemma kept_fields_aligned df fs n_lags :
  wf df → 0 < len df → fields_in_table df fs →
  NoDup (output_columns fs n_lags) →
  kept_fields_spec df fs n_lags.
Proof.
  intros Hwf Hpos Hin Hnd.
  destruct (transform_columns df fs n_lags Hwf Hpos Hin Hnd)
    as (out & Hout & Hcols).
  exists out. split_and!; [done| |].
  - unfold names. rewrite Hcols, output_assignments_names by done.
    by apply filter_kept_output_columns.
  - intros f Hf.
    destruct (fields_in_table_elem df fs f Hin) as [col Hcol];
      [by destruct Hf|].
    rewrite Hcol. unfold getitem. rewrite Hcols. apply dict_get_NoDup.
    + by rewrite output_assignments_names.
    + by apply kept_assignment.
Qed.

(** *** A field that is windowed and dropped *)

Lemma transform_fields_drop_ext df W D D' n fields d :
  (∀ g, g ∈ fields → g ∉ W → g ∈ D ↔ g ∈ D') →
  transform_fields df W D n fields d = transform_fields df W D' n fields d.
Proof.
  revert d. induction fields as [|f fields IH]; intros d Hext; csimpl.
  - done.
  - assert (∀ g, g ∈ fields → g ∉ W → g ∈ D ↔ g ∈ D') as Hext'
      by (intros g Hg; apply Hext; by right).
    destruct (decide (f ∈ W)) as [Hw|Hw].
    + destruct (transform_lags df f (seq 0 n) d); csimpl; [|done].
      by apply IH.
    + pose proof (Hext f ltac:(left) Hw) as Hf.
      destruct (decide (f ∈ D)), (decide (f ∈ D')); try tauto.
      * by apply IH.
      * destruct (getitem df f); csimpl; [|done]. by apply IH.
Qed.

Lemma assign_names_mono ns keys x : x ∈ ns → x ∈ assign_names ns keys.
Proof.
  revert ns. induction keys as [|k keys IH]; intros ns Hx; simpl; [done|].
  apply IH. unfold assign_name. case_decide; [done|].
  apply elem_of_app. by left.
Qed.

Lemma assign_names_elem ns keys x : x ∈ keys → x ∈ assign_names ns keys.
Proof.
  revert ns. induction keys as [|k keys IH]; intros ns Hx.
  - by apply elem_of_nil in Hx.
  - simpl. apply elem_of_cons in Hx as [->|Hx]; [|by apply IH].
    apply assign_names_mono. unfold assign_name. case_decide; [done|].
    apply elem_of_app. right. left.
Qed.

End transform_claims.

(** ** The settings cache *)

Section cache_facts.
Implicit Types (file : cache_file) (fs : FieldsSetting).
Implicit Types (all_cache : list (string * gmap string (list string))).
Implicit Types (key k filename : string).

Lemma to_plain_all_fields fs :
  plain_getitem (to_plain fs) "all_fields" = Ok (all_fields fs).
Proof. unfold plain_getitem, to_plain. by simplify_map_eq. Qed.

Lemma to_plain_fields_to_window fs :
  plain_getitem (to_plain fs) "fields_to_window" = Ok (fields_to_window fs).
Proof. unfold plain_getitem, to_plain. by simplify_map_eq. Qed.

Lemma to_plain_fields_to_drop fs :
  plain_getitem (to_plain fs) "fields_to_drop" = Ok (fields_to_drop fs).
Proof. unfold plain_getitem, to_plain. by simplify_map_eq. Qed.

Lemma from_plain_to_plain fs : from_plain (to_plain fs) = Ok fs.
Proof.
  unfold from_plain. rewrite to_plain_all_fields. csimpl.
  rewrite to_plain_fields_to_window. csimpl.
  rewrite to_plain_fields_to_drop. csimpl. by destruct fs.
Qed.

Lemma endswith_refl s : endswith s s = true.
Proof. destruct s; cbn [endswith]; by rewrite decide_True. Qed.

Lemma endswith_cons c s suffix :
  endswith s suffix = true → endswith (String c s) suffix = true.
Proof. intros Hs. cbn [endswith]. by case_decide. Qed.

Lemma endswith_path_name p : endswith p (path_name p) = true.
Proof.
  induction p as [|c p IH]; [done|].
  cbn [path_name]. destruct (has_slash p).
  - by apply endswith_cons.
  - case_decide.
    + apply endswith_cons, endswith_refl.
    + apply endswith_refl.
Qed.

Global Instance key_le_trans {V} : Transitive (@key_le V).
Proof. intros x y z. unfold key_le. apply transitivity. Qed.

Global Instance key_le_total {V} : Total (@key_le V).
Proof. intros x y. unfold key_le. apply total, _. Qed.

Lemma sort_keys_elem {V} (d : list (string * V)) x : x ∈ sort_keys d ↔ x ∈ d.
Proof. unfold sort_keys. by rewrite merge_sort_Permutation. Qed.

Lemma sort_keys_NoDup {V} (d : list (string * V)) :
  NoDup d.*1 → NoDup (sort_keys d).*1.
Proof. unfold sort_keys. by rewrite merge_sort_Permutation. Qed.

Lemma sort_keys_sorted {V} (d : list (string * V)) :
  StronglySorted key_le (sort_keys d).
Proof. apply (StronglySorted_merge_sort _). Qed.

Lemma dict_get_sort_keys {V} (d : list (string * V)) key :
  NoDup d.*1 → dict_get key (sort_keys d) = dict_get key d.
Proof.
  intros Hnd. destruct (dict_get key d) as [v|] eqn:Hget.
  - apply dict_get_NoDup; [by apply sort_keys_NoDup|].
    apply sort_keys_elem. by apply dict_get_Some_elem.
  - apply dict_get_None. apply dict_get_None in Hget.
    intros Hin. apply Hget. revert Hin. unfold sort_keys.
    by rewrite merge_sort_Permutation.
Qed.

Lemma load_by_suffix_first filename before k plain_obj after :
  Forall (λ kv, endswith kv.1 filename = false) before →
  endswith k filename = true →
  load_by_suffix filename (before ++ (k, plain_obj) :: after)
  = Some <$> from_plain plain_obj.
Proof.
  intros Hbefore Hk. induction Hbefore as [|[k' p'] before Hk' _ IH]; simpl.
  - by rewrite Hk.
  - simpl in Hk'. by rewrite Hk'.
Qed.

(** In a sorted dictionary the scan stops at the least key that ends with
    the file name. *)
Lemma load_by_suffix_sorted filename all_cache k plain_obj :
  StronglySorted key_le all_cache → NoDup all_cache.*1 →
  (k, plain_obj) ∈ all_cache →
  endswith k filename = true →
  (∀ k', k' ∈ all_cache.*1 → k' ≠ k → endswith k' filename = true →
         String.le k k') →
  load_by_suffix filename all_cache = Some <$> from_plain plain_obj.
Proof.
  intros Hsorted Hnd Hin Hk Hleast.
  induction Hsorted as [|[k' p'] rest Hsorted IH Hle]; simpl.
  - by apply elem_of_nil in Hin.
  - csimpl in Hnd. apply NoDup_cons in Hnd as [Hk' Hnd].
    destruct (decide (k' = k)) as [->|Hne].
    + rewrite Hk. apply elem_of_cons in Hin as [[= ->]|Hin]; [done|].
      exfalso. apply Hk'. apply list_elem_of_fmap. by exists (k, plain_obj).
    + apply elem_of_cons in Hin as [[= ? ?]|Hin]; [done|].
      destruct (endswith k' filename) eqn:Hends.
      * exfalso. apply Hne. apply (anti_symm String.le).
        -- apply (proj1 (Forall_forall _ _) Hle (k, plain_obj) Hin).
        -- apply Hleast; [left|done..].
      * apply IH; [done..|].
        intros k'' Hk''. apply Hleast. by right.
Qed.

Lemma load_fields_setting_first file before k plain_obj after key :
  load_all_cache file = Ok (before ++ (k, plain_obj) :: after) →
  dict_get key (before ++ (k, plain_obj) :: after) = None →
  Forall (λ kv, endswith kv.1 (path_name key) = false) before →
  endswith k (path_name key) = true →
  load_fields_setting file key = Some <$> from_plain plain_obj.
Proof.
  intros Hload Hnone Hbefore Hk.
  unfold load_fields_setting. rewrite Hload. csimpl. rewrite Hnone.
  by apply load_by_suffix_first.
Qed.

Lemma save_then_load file all_cache key fs :
  cache_wf file → load_all_cache file = Ok all_cache →
  ∃ file', save_fields_setting file key fs = Ok file'
           ∧ cache_wf file'
           ∧ load_fields_setting file' key = Ok (Some fs).
Proof.
  intros Hwf Hload.
  assert (NoDup all_cache.*1) as Hnd.
  { destruct file; simplify_eq/=; [apply NoDup_nil_2 | done]. }
  unfold save_fields_setting. rewrite Hload. csimpl.
  eexists. split; [done|].
  pose proof (dict_set_NoDup key (to_plain fs) _ Hnd) as Hnd'.
  split; [by apply sort_keys_NoDup|].
  unfold load_fields_setting, save_all_cache. csimpl.
  rewrite dict_get_sort_keys, dict_get_set_eq by done.
  by rewrite from_plain_to_plain.
Qed.

End cache_facts.

Section cache_claims.
Implicit Types (file : cache_file) (fs : FieldsSetting).
Implicit Types (all_cache : list (string * gmap string (list string))).
Implicit Types (key k filename : string).

(** C5, as stated, fails: a cache file whose text is not JSON makes the
    load raise the error of the decoder, where an empty cache gives no
    classification. *)
Lemma unreadable_as_empty_corrupt :
  ¬ unreadable_as_empty Corrupt "/a/b/data.csv".
Proof. unfold unreadable_as_empty. vm_compute. discriminate. Qed.

(** C5 (amended): when the cache file is missing, the load behaves as on
    an empty cache and returns no classification, without an error; every
    error of reading the cache file is the outcome of the load: a file
    that cannot be opened or read makes it raise [OSError], a file whose
    text is not JSON makes it raise the error of the decoder. *)
Theorem load_missing_cache file input_file_path :
  (file = Missing →
   unreadable_as_empty file input_file_path
   ∧ load_fields_setting file input_file_path = Ok None)
  ∧ (∀ e, load_all_cache file = Raise e →
          load_fields_setting file input_file_path = Raise e)
  ∧ (file = Unreadable →
     load_fields_setting file input_file_path = Raise OSError)
  ∧ (file = Corrupt →
     load_fields_setting file input_file_path = Raise JSONDecodeError).
Proof.
  split_and!.
  - by intros ->.
  - intros e He. unfold load_fields_setting. by rewrite He.
  - by intros ->.
  - by intros ->.
Qed.

Lemma load_missing_cache_witness :
  load_fields_setting Missing "/a/b/data.csv" = Ok None
  ∧ load_fields_setting Corrupt "/a/b/data.csv" = Raise JSONDecodeError.
Proof.
  split.
  - exact (proj2 (proj1 (load_missing_cache Missing "/a/b/data.csv")
                    eq_refl)).
  - exact (proj2 (proj2 (proj2 (load_missing_cache Corrupt "/a/b/data.csv")))
             eq_refl).
Defined.

(** C6, as stated, fails: when the cache already knows [/a/a/data.csv],
    that key is met first by the scan and its classification is
    returned. *)
Lemma fallback_spec_earlier_key :
  ¬ fallback_spec cache_a_a "/a/b/data.csv" "/x/y/data.csv" setting_y.
Proof.
  intros Hspec.
  specialize (Hspec _ _ eq_refl eq_refl).
  assert (load_fields_setting
            (save_all_cache
               (dict_set "/a/b/data.csv" (to_plain setting_y)
                  [("/a/a/data.csv", to_plain setting_x)]))
            "/x/y/data.csv" = Ok (Some setting_x)) as Hload
    by (vm_compute; reflexivity).
  rewrite Hload in Hspec.
  assert (Ok (Some setting_x) = Ok (Some setting_y)) as Heq
    by (apply Hspec; vm_compute; reflexivity).
  discriminate Heq.
Qed.

Lemma dict_set_keys {V} key (v : V) d k :
  k ∈ (dict_set key v d).*1 ↔ k = key ∨ k ∈ d.*1.
Proof.
  rewrite dict_set_names. unfold assign_name. case_decide.
  - split; [by right|]. by intros [->|?].
  - rewrite elem_of_app, list_elem_of_singleton. tauto.
Qed.

(** After a save under [key1], a load under a path that is no key
    returns the classification of the least key that ends with the file
    name. *)
Lemma load_after_save_least all_cache key1 key2 fs k plain_obj :
  NoDup all_cache.*1 → key2 ≠ key1 → dict_get key2 all_cache = None →
  (k, plain_obj) ∈ dict_set key1 (to_plain fs) all_cache →
  endswith k (path_name key2) = true →
  (∀ k', k' ∈ (dict_set key1 (to_plain fs) all_cache).*1 → k' ≠ k →
         endswith k' (path_name key2) = true → String.le k k') →
  load_fields_setting
    (save_all_cache (dict_set key1 (to_plain fs) all_cache)) key2
  = Some <$> from_plain plain_obj.
Proof.
  intros Hnd Hne Hnone Hin Hk Hleast.
  pose proof (dict_set_NoDup key1 (to_plain fs) _ Hnd) as Hnd'.
  unfold load_fields_setting, save_all_cache. csimpl.
  rewrite dict_get_sort_keys, dict_get_set_ne, Hnone by done.
  apply (load_by_suffix_sorted _ _ k).
  - apply sort_keys_sorted.
  - by apply sort_keys_NoDup.
  - by apply sort_keys_elem.
  - done.
  - intros k' Hk'. apply Hleast.
    apply dict_get_is_Some. apply dict_get_is_Some in Hk'.
    by rewrite dict_get_sort_keys in Hk'.
Qed.

(** Of the keys that end with a file name, the saved key or a key of the
    cache is the least. *)
Lemma least_matching (keys : list string) (filename key1 : string) :
  Forall (λ k, k ≠ key1 → endswith k filename = true → String.le key1 k)
    keys
  ∨ ∃ k, k ∈ keys ∧ k ≠ key1 ∧ endswith k filename = true
         ∧ String.le k key1
         ∧ Forall (λ k', k' ≠ k → endswith k' filename = true →
                         String.le k k') keys.
Proof.
  induction keys as [|k0 keys IH]; [by left|].
  destruct IH as [Hleast|(k & Hk & Hne & Hends & Hle & Hleast)].
  - destruct (decide (k0 ≠ key1 ∧ endswith k0 filename = true
                      ∧ ¬ String.le key1 k0)) as [(H0 & H1 & H2)|Hno].
    + right. exists k0.
      assert (String.le k0 key1) as Hle
        by (by destruct (total String.le k0 key1)).
      split_and!; [left|done..|].
      constructor; [done|].
      eapply Forall_impl; [exact Hleast|]. intros k' Hk' _ Hends'.
      destruct (decide (k' = key1)) as [->|Hne']; [done|].
      by trans key1; [|apply Hk'].
    + left. constructor; [|done]. intros H0 H1.
      destruct (decide (String.le key1 k0)); [done|].
      exfalso. by apply Hno.
  - right.
    destruct (decide (k0 ≠ k ∧ endswith k0 filename = true
                      ∧ ¬ String.le k k0)) as [(H0 & H1 & H2)|Hno].
    + assert (String.le k0 k) as Hle0
        by (by destruct (total String.le k0 k)).
      exists k0. split_and!; [left|..|done| |].
      * intros ->. apply Hne. by apply (anti_symm String.le).
      * by trans k.
      * constructor; [done|].
        eapply Forall_impl; [exact Hleast|]. intros k' Hk' _ Hends'.
        destruct (decide (k' = k)) as [->|Hne']; [done|].
        by trans k; [|apply Hk'].
    + exists k. split_and!; [by right|done..|].
      constructor; [|done]. intros H0 H1.
      destruct (decide (String.le k k0)); [done|].
      exfalso. apply Hno. split_and!; [by intros ->|done..].
Qed.

(** C6 (amended): after a classification is saved under [key1], a load
    under another path [key2] of the same file name that is no key of
    the cache returns that classification, provided [key1] sorts before
    every other key of the cache that ends with the file name;
    otherwise it returns the classification of the first such key in
    the sorted order of the cache file, which is a key [k] of the cache
    that sorts before [key1] and before every other such key.  One of
    the two is the case. *)
Theorem load_fallback_saved file all_cache key1 key2 fs :
  cache_wf file → load_all_cache file = Ok all_cache →
  path_name key1 = path_name key2 → key2 ≠ key1 →
  dict_get key2 all_cache = None →
  ∃ file', save_fields_setting file key1 fs = Ok file'
    ∧ (Forall (λ k, k ≠ key1 → endswith k (path_name key2) = true →
                    String.le key1 k) all_cache.*1 →
       load_fields_setting file' key2 = Ok (Some fs))
    ∧ (∀ k plain_obj,
         (k, plain_obj) ∈ all_cache → k ≠ key1 →
         endswith k (path_name key2) = true → String.le k key1 →
         Forall (λ k', k' ≠ k → endswith k' (path_name key2) = true →
                       String.le k k') all_cache.*1 →
         load_fields_setting file' key2 = Some <$> from_plain plain_obj)
    ∧ (Forall (λ k, k ≠ key1 → endswith k (path_name key2) = true →
                    String.le key1 k) all_cache.*1
       ∨ ∃ k plain_obj,
           (k, plain_obj) ∈ all_cache ∧ k ≠ key1
           ∧ endswith k (path_name key2) = true ∧ String.le k key1
           ∧ Forall (λ k', k' ≠ k → endswith k' (path_name key2) = true →
                           String.le k k') all_cache.*1).
Proof.
  intros Hwf Hload Hname Hne Hnone.
  assert (NoDup all_cache.*1) as Hnd.
  { destruct file; simplify_eq/=; [apply NoDup_nil_2 | done]. }
  assert (endswith key1 (path_name key2) = true) as Hends1.
  { rewrite <- Hname. apply endswith_path_name. }
  unfold save_fields_setting. rewrite Hload. csimpl.
  eexists. split; [done|]. split_and!.
  - intros Hleast.
    rewrite (load_after_save_least _ _ _ _ key1 (to_plain fs));
      [by rewrite from_plain_to_plain|done..| | |].
    + apply dict_get_Some_elem, dict_get_set_eq.
    + done.
    + intros k [->|Hk]%dict_set_keys Hkne; [done|].
      by apply (proj1 (Forall_forall _ _) Hleast).
  - intros k plain_obj Hin Hkne Hends Hle Hleast.
    apply (load_after_save_least _ _ _ _ k); [done..| |done|].
    + apply dict_get_Some_elem. rewrite dict_get_set_ne by done.
      by apply dict_get_NoDup.
    + intros k' [->|Hk']%dict_set_keys Hkne'; [done|].
      by apply (proj1 (Forall_forall _ _) Hleast).
  - destruct (least_matching all_cache.*1 (path_name key2) key1)
      as [Hleast|(k & Hk & Hkne & Hends & Hle & Hleast)]; [by left|].
    right. apply list_elem_of_fmap in Hk as ([k' plain_obj] & -> & Hin).
    by exists k', plain_obj.
Qed.

Lemma load_fallback_saved_witness :
  cache_wf cache_b_a
  ∧ path_name "/a/b/data.csv" = path_name "/x/y/data.csv"
  ∧ (∃ file', save_fields_setting cache_b_a "/a/b/data.csv" setting_y
              = Ok file'
              ∧ load_fields_setting file' "/x/y/data.csv"
                = Ok (Some setting_y))
  ∧ (∃ file', save_fields_setting cache_a_a "/a/b/data.csv" setting_y
              = Ok file'
              ∧ load_fields_setting file' "/x/y/data.csv"
                = Ok (Some setting_x)).
Proof.
  assert (cache_wf cache_b_a) as Hwf by compute_done.
  assert (cache_wf cache_a_a) as Hwf' by compute_done.
  split_and!; [done|reflexivity| |].
  - destruct (load_fallback_saved cache_b_a
                [("/b/a/data.csv", to_plain setting_x)]
                "/a/b/data.csv" "/x/y/data.csv" setting_y)
      as (file' & Hsave & Hfirst & _);
      [done|reflexivity|reflexivity|compute_done|reflexivity|].
    exists file'. split; [done|]. apply Hfirst. compute_done.
  - destruct (load_fallback_saved cache_a_a
                [("/a/a/data.csv", to_plain setting_x)]
                "/a/b/data.csv" "/x/y/data.csv" setting_y)
      as (file' & Hsave & _ & Hother & _);
      [done|reflexivity|reflexivity|compute_done|reflexivity|].
    exists file'. split; [done|].
    rewrite (Hother "/a/a/data.csv" (to_plain setting_x));
      [by rewrite from_plain_to_plain|left|compute_done..].
Defined.

(** C7: when a load under a path returns a classification, saving it
    under the same path succeeds and a second load returns the same
    classification; and whatever is saved under a path of a readable
    cache is what the next load under that path returns. *)
Theorem load_save_load file input_file_path fs :
  cache_wf file →
  load_fields_setting file input_file_path = Ok (Some fs) →
  (∃ file', save_fields_setting file input_file_path fs = Ok file'
            ∧ load_fields_setting file' input_file_path = Ok (Some fs))
  ∧ (∀ fs', ∃ file',
       save_fields_setting file input_file_path fs' = Ok file'
       ∧ load_fields_setting file' input_file_path = Ok (Some fs')).
Proof.
  intros Hwf Hload.
  assert (∃ all_cache, load_all_cache file = Ok all_cache) as [c Hc].
  { unfold load_fields_setting in Hload.
    destruct (load_all_cache file); [by eexists | done]. }
  split.
  - destruct (save_then_load file c input_file_path fs Hwf Hc)
      as (file' & ? & _ & ?). by exists file'.
  - intros fs'.
    destruct (save_then_load file c input_file_path fs' Hwf Hc)
      as (file' & ? & _ & ?). by exists file'.
Qed.

Lemma load_save_load_witness :
  cache_wf cache_a_a
  ∧ load_fields_setting cache_a_a "/x/y/data.csv" = Ok (Some setting_x)
  ∧ ∃ file', save_fields_setting cache_a_a "/x/y/data.csv" setting_x
             = Ok file'
             ∧ load_fields_setting file' "/x/y/data.csv"
               = Ok (Some setting_x).
Proof.
  assert (cache_wf cache_a_a) as Hwf by compute_done.
  assert (load_fields_setting cache_a_a "/x/y/data.csv"
          = Ok (Some setting_x)) as Hload by (vm_compute; reflexivity).
  split_and!; [done..|].
  exact (proj1 (load_save_load cache_a_a "/x/y/data.csv" setting_x
                  Hwf Hload)).
Defined.

(** C9: the fallback tests the whole key with [endswith]: the key
    [/a/bdata.csv], whose file name is [bdata.csv], matches the file name
    [data.csv] and its classification is returned; and of the keys that
    match, the first in the order of the dictionary is taken. *)
Theorem load_suffix_match :
  (∀ fs, path_name "/a/bdata.csv" = "bdata.csv"
         ∧ path_name "/x/y/data.csv" = "data.csv"
         ∧ load_fields_setting (Stored [("/a/bdata.csv", to_plain fs)])
             "/x/y/data.csv" = Ok (Some fs))
  ∧ (∀ file before k plain_obj after input_file_path,
       load_all_cache file = Ok (before ++ (k, plain_obj) :: after) →
       dict_get input_file_path (before ++ (k, plain_obj) :: after) = None →
       Forall (λ kv, endswith kv.1 (path_name input_file_path) = false)
         before →
       endswith k (path_name input_file_path) = true →
       load_fields_setting file input_file_path
       = Some <$> from_plain plain_obj).
Proof.
  split.
  - intros fs. split_and!; [done..|].
    rewrite (load_fields_setting_first _ [] "/a/bdata.csv" (to_plain fs) []);
      [by rewrite from_plain_to_plain|done|done|constructor|done].
  - apply load_fields_setting_first.
Qed.

Lemma load_suffix_match_witness :
  load_fields_setting cache_two_matches "/x/y/data.csv"
  = Ok (Some setting_x).
Proof.
  rewrite (proj2 load_suffix_match cache_two_matches []
             "/a/bdata.csv" (to_plain setting_x)
             [("/c/data.csv", to_plain setting_y)] "/x/y/data.csv");
    [by rewrite from_plain_to_plain|reflexivity|reflexivity
    |constructor|reflexivity].
Defined.

End cache_claims.

(** ** The interactive classification *)

Section session_facts.
Implicit Types (st : Session.state) (key : option Z) (keys : list Z).
Implicit Types (fs : FieldsSetting).

Lemma go_down_fields st :
  Session.all_fields (Session.go_down st) = Session.all_fields st
  ∧ Session.fields_to_window (Session.go_down st) = Session.fields_to_window st
  ∧ Session.fields_to_drop (Session.go_down st) = Session.fields_to_drop st
  ∧ Session.fields_to_keep (Session.go_down st) = Session.fields_to_keep st.
Proof. unfold Session.go_down. by case_match. Qed.

Lemma go_up_fields st :
  Session.all_fields (Session.go_up st) = Session.all_fields st
  ∧ Session.fields_to_window (Session.go_up st) = Session.fields_to_window st
  ∧ Session.fields_to_drop (Session.go_up st) = Session.fields_to_drop st
  ∧ Session.fields_to_keep (Session.go_up st) = Session.fields_to_keep st.
Proof. unfold Session.go_up. by case_match. Qed.

Lemma go_down_idx st :
  Session.current_field_idx (Session.go_down st)
  = if (Session.current_field_idx st <? Z.of_nat (length (Session.all_fields st)) - 1)%Z
    then (Session.current_field_idx st + 1)%Z else Session.current_field_idx st.
Proof. unfold Session.go_down. by case_match. Qed.

Lemma go_up_idx st :
  Session.current_field_idx (Session.go_up st)
  = if (Session.current_field_idx st >? 0)%Z
    then (Session.current_field_idx st - 1)%Z else Session.current_field_idx st.
Proof. unfold Session.go_up. by case_match. Qed.

Lemma go_down_cursor st : cursor_inv st → cursor_inv (Session.go_down st).
Proof.
  unfold cursor_inv. destruct (go_down_fields st) as (-> & _).
  rewrite go_down_idx.
  destruct (Z.ltb_spec (Session.current_field_idx st)
              (Z.of_nat (length (Session.all_fields st)) - 1)); lia.
Qed.

Lemma go_up_cursor st : cursor_inv st → cursor_inv (Session.go_up st).
Proof.
  unfold cursor_inv. destruct (go_up_fields st) as (-> & _).
  rewrite go_up_idx. rewrite Z.gtb_ltb.
  destruct (Z.ltb_spec 0 (Session.current_field_idx st)); lia.
Qed.

Lemma go_down_partition st : partition_inv st → partition_inv (Session.go_down st).
Proof.
  unfold partition_inv.
  by destruct (go_down_fields st) as (-> & -> & -> & ->).
Qed.

Lemma go_up_partition st : partition_inv st → partition_inv (Session.go_up st).
Proof.
  unfold partition_inv.
  by destruct (go_up_fields st) as (-> & -> & -> & ->).
Qed.

(** Under the cursor invariant the cursor selects a field. *)
Lemma current_field_exists st :
  cursor_inv st →
  ∃ f, list_getitem (Session.all_fields st) (Session.current_field_idx st) = Some f
       ∧ f ∈ Session.all_fields st.
Proof.
  intros [Hlo Hhi]. unfold list_getitem.
  destruct (Z.leb_spec 0 (Session.current_field_idx st)); [|lia].
  destruct (lookup_lt_is_Some_2 (Session.all_fields st)
              (Z.to_nat (Session.current_field_idx st))) as [f Hf]; [lia|].
  exists f. split; [done|]. by eapply list_elem_of_lookup_2.
Qed.

Lemma dispatch_cases key st :
  cursor_inv st → dispatched st (Session.dispatch key st).
Proof.
  intros Hcur. destruct (current_field_exists st Hcur) as (f & Hf & Hin).
  unfold Session.dispatch, Session.with_current_field. rewrite Hf.
  repeat case_decide; by constructor.
Qed.

Lemma dispatch_cursor key st st' :
  cursor_inv st → Session.dispatch key st = Session.Continue st' → cursor_inv st'.
Proof.
  intros Hcur Hst'. pose proof (dispatch_cases key st Hcur) as Hd.
  rewrite Hst' in Hd.
  inversion Hd; subst; auto using go_down_cursor, go_up_cursor.
Qed.

Lemma dispatch_all_fields key st st' :
  cursor_inv st → Session.dispatch key st = Session.Continue st' →
  Session.all_fields st' = Session.all_fields st.
Proof.
  intros Hcur Hst'. pose proof (dispatch_cases key st Hcur) as Hd.
  rewrite Hst' in Hd.
  inversion Hd; subst; try done;
    try (by destruct (go_down_fields st) as (-> & _));
    try (by destruct (go_up_fields st) as (-> & _));
    by match goal with
       | |- Session.all_fields (Session.go_down ?s) = _ =>
           destruct (go_down_fields s) as (-> & _)
       end.
Qed.

Lemma partition_keep (all w d : gset string) f :
  f ∈ all → w ## d → w ⊆ all → d ⊆ all →
  w ∖ {[f]} ## d ∖ {[f]} ∧ w ∖ {[f]} ⊆ all ∧ d ∖ {[f]} ⊆ all
  ∧ all ∖ w ∖ d ∪ {[f]} = all ∖ (w ∖ {[f]}) ∖ (d ∖ {[f]}).
Proof.
  intros Hf Hwd Hw Hd. split_and!; [set_solver..|].
  apply set_eq. intros x. destruct (decide (x = f)) as [->|]; set_solver.
Qed.

Lemma partition_drop (all w d : gset string) f :
  f ∈ all → w ## d → w ⊆ all → d ⊆ all →
  w ∖ {[f]} ## d ∪ {[f]} ∧ w ∖ {[f]} ⊆ all ∧ d ∪ {[f]} ⊆ all
  ∧ all ∖ w ∖ d ∖ {[f]} = all ∖ (w ∖ {[f]}) ∖ (d ∪ {[f]}).
Proof.
  intros Hf Hwd Hw Hd. split_and!; [set_solver..|].
  apply set_eq. intros x. destruct (decide (x = f)) as [->|]; set_solver.
Qed.

Lemma partition_window (all w d : gset string) f :
  f ∈ all → w ## d → w ⊆ all → d ⊆ all →
  w ∪ {[f]} ## d ∖ {[f]} ∧ w ∪ {[f]} ⊆ all ∧ d ∖ {[f]} ⊆ all
  ∧ all ∖ w ∖ d ∖ {[f]} = all ∖ (w ∪ {[f]}) ∖ (d ∖ {[f]}).
Proof.
  intros Hf Hwd Hw Hd. split_and!; [set_solver..|].
  apply set_eq. intros x. destruct (decide (x = f)) as [->|]; set_solver.
Qed.

Lemma dispatch_partition key st st' :
  cursor_inv st → partition_inv st →
  Session.dispatch key st = Session.Continue st' →
  partition_inv st'.
Proof.
  intros Hcur Hinv Hst'. pose proof (dispatch_cases key st Hcur) as Hd.
  rewrite Hst' in Hd.
  inversion Hd as [| |f Hf|f Hf|f Hf| | |]; subst;
    auto using go_down_partition, go_up_partition;
    apply go_down_partition; destruct Hinv as (Hwd & Hw & Hdr & Hk);
    apply (elem_of_list_to_set (C:=gset string)) in Hf;
    unfold partition_inv; cbn [Session.all_fields Session.fields_to_window
      Session.fields_to_drop Session.fields_to_keep]; rewrite Hk.
  - by apply partition_keep.
  - by apply partition_drop.
  - by apply partition_window.
Qed.

Lemma partition_exactly_one st : partition_inv st → exactly_one_state st.
Proof.
  intros (Hwd & Hw & Hd & Hk) f Hf%(elem_of_list_to_set (C:=gset string)).
  rewrite Hk.
  destruct (decide (f ∈ Session.fields_to_window st));
    destruct (decide (f ∈ Session.fields_to_drop st)); set_solver.
Qed.

Lemma draw_ok st fields :
  partition_inv st → fields ⊆ Session.all_fields st → is_Ok_draw st fields.
Proof.
  intros Hinv. induction fields as [|f fields IH]; intros Hsub.
  - by eexists.
  - destruct IH as [lines Hlines]; [set_solver|].
    assert (f ∈ Session.all_fields st) as Hf by set_solver.
    destruct (partition_exactly_one st Hinv f Hf)
      as [(Hw & _)|[(Hw & Hd & _)|(Hw & Hd & Hk)]];
      unfold is_Ok_draw; cbn [Session.draw]; unfold Session.flag.
    + rewrite decide_True by done. csimpl. rewrite Hlines. by eexists.
    + rewrite decide_False, decide_True by done. csimpl.
      rewrite Hlines. by eexists.
    + rewrite !decide_False, decide_True by done. csimpl.
      rewrite Hlines. by eexists.
Qed.

Lemma init_all_fields fs : Session.all_fields (Session.init fs) = all_fields fs.
Proof. by destruct fs. Qed.

Lemma init_partition fs : setting_wf fs → partition_inv (Session.init fs).
Proof.
  destruct fs as [all W D]. intros (Hw & Hd & Hwd). simpl in *.
  rewrite Forall_forall in Hw, Hd, Hwd.
  unfold partition_inv. simpl. split_and!; [| | |done].
  - intros x Hx%elem_of_list_to_set Hx'%elem_of_list_to_set.
    by apply (Hwd x).
  - intros x Hx%elem_of_list_to_set. apply elem_of_list_to_set. auto.
  - intros x Hx%elem_of_list_to_set. apply elem_of_list_to_set. auto.
Qed.

Lemma init_cursor fs : all_fields fs ≠ [] → cursor_inv (Session.init fs).
Proof.
  destruct fs as [all W D]. simpl. intros Hne. unfold cursor_inv. simpl.
  destruct all; [done|]. simpl. lia.
Qed.

Lemma returned_wf st :
  partition_inv st →
  setting_wf (mkFieldsSetting (Session.all_fields st)
                (elements (Session.fields_to_window st))
                (elements (Session.fields_to_drop st))).
Proof.
  intros (Hwd & Hw & Hd & _). unfold setting_wf. simpl.
  rewrite !Forall_forall. split_and!.
  - intros x Hx%elem_of_elements.
    by apply (elem_of_list_to_set (C:=gset string)), Hw.
  - intros x Hx%elem_of_elements.
    by apply (elem_of_list_to_set (C:=gset string)), Hd.
  - intros x Hx%elem_of_elements Hx'%elem_of_elements.
    by apply (Hwd x).
Qed.

Lemma loop_ok fs key keys st :
  Session.all_fields st = all_fields fs →
  partition_inv st → cursor_inv st →
  session_ok fs (Session.loop key keys st).
Proof.
  revert key st. induction keys as [|key' keys IH];
    intros key st Hall Hinv Hcur; cbn [Session.loop];
    pose proof (dispatch_cases key st Hcur) as Hd;
    destruct (Session.dispatch key st) as [st'| | |e] eqn:Hst';
    try (by inversion Hd);
    try (simpl; split; [done|by apply returned_wf]).
  - pose proof (dispatch_partition _ _ _ Hcur Hinv Hst') as Hinv'.
    pose proof (dispatch_cursor _ _ _ Hcur Hst') as Hcur'.
    pose proof (dispatch_all_fields _ _ _ Hcur Hst') as Hall'.
    destruct (draw_ok st' (Session.all_fields st') Hinv') as [lines ->]; [done|].
    simpl. split_and!; [congruence|done|by apply partition_exactly_one|done].
  - pose proof (dispatch_partition _ _ _ Hcur Hinv Hst') as Hinv'.
    pose proof (dispatch_cursor _ _ _ Hcur Hst') as Hcur'.
    pose proof (dispatch_all_fields _ _ _ Hcur Hst') as Hall'.
    destruct (draw_ok st' (Session.all_fields st') Hinv') as [lines ->]; [done|].
    apply IH; [congruence|done..].
Qed.

Lemma loop_cursor key keys st st' :
  cursor_inv st → Session.loop key keys st = Session.Waiting st' → cursor_inv st'.
Proof.
  revert key st. induction keys as [|key' keys IH];
    intros key st Hcur; cbn [Session.loop];
    destruct (Session.dispatch key st) as [st1| | |e] eqn:Hst1; try done;
    pose proof (dispatch_cursor _ _ _ Hcur Hst1) as Hcur1;
    destruct (Session.draw st1 (Session.all_fields st1)); try done.
  - by intros [= <-].
  - by apply IH.
Qed.

End session_facts.

Section session_claims.
Implicit Types (st : Session.state) (key : option Z) (keys : list Z).
Implicit Types (fs : FieldsSetting).

Example session_run :
  Session.configure_fields_settings_interactively
    [ord "w"; ord "d"; Curses.KEY_UP; ord "k"; Curses.KEY_DOWN;
     Curses.KEY_DOWN; ord "d"; ord "010"]
    (mkFieldsSetting ["a"; "b"; "c"] [] [])
  = Session.Returned (mkFieldsSetting ["a"; "b"; "c"] ["a"] ["c"]).
Proof. vm_compute. reflexivity. Qed.

(** The classification [main] starts from when the cache has none. *)
Lemma default_setting_wf (columns : list string) :
  setting_wf (mkFieldsSetting columns [] []).
Proof. unfold setting_wf. simpl. by split_and!. Qed.

(** C4: a session that starts from a classification in which the
    windowed and the dropped fields are fields and no field is both keeps,
    after every key, the windowed and the dropped set disjoint and within
    the fields, the kept set equal to the rest, every field in exactly one
    of the three sets and the cursor on a field; no key makes it raise,
    and the classification it returns satisfies the same conditions.  Only
    an empty field list makes the session fail, before any key is read. *)
Theorem session_partition fs keys :
  setting_wf fs →
  session_ok fs (Session.configure_fields_settings_interactively keys fs).
Proof.
  intros Hwf. unfold Session.configure_fields_settings_interactively.
  pose proof (init_all_fields fs) as Hall.
  destruct (Session.all_fields (Session.init fs)) as [|f fields] eqn:Hfields.
  - simpl. done.
  - apply loop_ok; [congruence|by apply init_partition|].
    apply init_cursor. by rewrite <- Hall.
Qed.

Lemma session_partition_witness :
  setting_wf setting_abc
  ∧ session_ok setting_abc
      (Session.configure_fields_settings_interactively
         [ord "d"; Curses.KEY_UP; ord "w"; ord "k"; Curses.KEY_DOWN]
         setting_abc).
Proof.
  assert (setting_wf setting_abc) as Hwf by compute_done.
  split; [done|].
  exact (session_partition setting_abc
           [ord "d"; Curses.KEY_UP; ord "w"; ord "k"; Curses.KEY_DOWN] Hwf).
Defined.

(** C8: on a non-empty field list, moving up from index 0 leaves the
    cursor at 0 and moving down from the last index leaves it at the last
    index; every key that lets the loop continue keeps the cursor within
    [0, len(all_fields) - 1], and so does every run of keys, from any
    state with the cursor in that range and from the start of a
    session. *)
Theorem cursor_clamped st fs keys :
  Session.all_fields st ≠ [] →
  (Session.current_field_idx st = 0%Z →
   Session.current_field_idx (Session.go_up st) = 0%Z)
  ∧ (Session.current_field_idx st
     = (Z.of_nat (length (Session.all_fields st)) - 1)%Z →
     Session.current_field_idx (Session.go_down st)
     = (Z.of_nat (length (Session.all_fields st)) - 1)%Z)
  ∧ (cursor_inv st → ∀ key st',
       Session.dispatch key st = Session.Continue st' → cursor_inv st')
  ∧ (cursor_inv st → ∀ key st',
       Session.loop key keys st = Session.Waiting st' → cursor_inv st')
  ∧ (∀ st', Session.configure_fields_settings_interactively keys fs
            = Session.Waiting st' → cursor_inv st').
Proof.
  intros Hne. split_and!.
  - intros H0. rewrite go_up_idx, H0. done.
  - intros Hlast. rewrite go_down_idx, Hlast.
    by rewrite Z.ltb_irrefl.
  - intros Hcur key st'. by apply dispatch_cursor.
  - intros Hcur key st'. by apply loop_cursor.
  - intros st'. unfold Session.configure_fields_settings_interactively.
    pose proof (init_all_fields fs) as Hall.
    destruct (Session.all_fields (Session.init fs)) as [|f fields] eqn:Hf;
      [done|].
    apply loop_cursor. apply init_cursor. by rewrite <- Hall.
Qed.

Lemma cursor_clamped_witness :
  Session.all_fields session_at_end ≠ []
  ∧ Session.current_field_idx (Session.go_down session_at_end) = 2%Z
  ∧ cursor_inv (Session.go_down session_at_end).
Proof.
  assert (Session.all_fields session_at_end ≠ []) as Hne by done.
  assert (cursor_inv session_at_end) as Hcur by (unfold cursor_inv; simpl; lia).
  destruct (cursor_clamped session_at_end setting_abc [] Hne)
    as (_ & Hdown & Hstep & _).
  split_and!; [done|by apply Hdown|].
  apply (Hstep Hcur (Some Curses.KEY_DOWN)). reflexivity.
Defined.

End session_claims.

(** ** More about [transform] *)

Section transform_more.
Import Pandas.
Implicit Types (df d out : DataFrame) (fs : FieldsSetting) (f g c : string).
Implicit Types (W D : gset string).

Lemma dict_set_Forall {V} (P : string * V → Prop) key (v : V) dict :
  Forall P dict → P (key, v) → Forall P (dict_set key v dict).
Proof.
  intros Hd Hv. induction Hd as [|[k w] dict Hk Hd IH]; simpl.
  - by constructor.
  - case_decide; subst; by constructor.
Qed.

Lemma setitem_wf d key value : wf d → wf (setitem d key value).
Proof.
  intros [Hnd Hlen]. split.
  - rewrite setitem_names. unfold assign_name. case_decide; [done|].
    apply NoDup_app. split_and!; [done| |apply NoDup_singleton].
    by intros x Hx ->%list_elem_of_singleton.
  - unfold setitem. cbn [index_len columns].
    apply dict_set_Forall; [|simpl; apply reindex_length].
    unfold ensure_valid_index. case_decide; [|done].
    cbn [index_len columns]. apply Forall_fmap, Forall_true.
    intros [k v]. simpl. apply reindex_length.
Qed.

Lemma transform_lags_wf df f lags d out :
  wf d → transform_lags df f lags d = Some out → wf out.
Proof.
  revert d. induction lags as [|i lags IH]; intros d Hd; csimpl.
  - by intros [= <-].
  - destruct (getitem df f); csimpl; [|done].
    apply IH. by apply setitem_wf.
Qed.

Lemma transform_fields_wf df W D n fields d out :
  wf d → transform_fields df W D n fields d = Some out → wf out.
Proof.
  revert d. induction fields as [|f fields IH]; intros d Hd; csimpl.
  - by intros [= <-].
  - destruct (decide (f ∈ W)).
    + destruct (transform_lags df f (seq 0 n) d) as [d1|] eqn:Hd1;
        csimpl; [|done].
      apply IH. by eapply transform_lags_wf.
    + destruct (decide (f ∈ D)); [by apply IH|].
      destruct (getitem df f); csimpl; [|done].
      apply IH. by apply setitem_wf.
Qed.

Lemma empty_frame_wf : wf empty_frame.
Proof. split; [apply NoDup_nil_2 | apply Forall_nil_2]. Qed.

(** X1: whatever the table and the classification, a table that
    [transform] returns has distinct column names and columns as long as
    its index. *)
Theorem transform_output_wf df fs n_lags out :
  transform df fs n_lags = Some out → wf out.
Proof. apply transform_fields_wf, empty_frame_wf. Qed.

Lemma transform_output_wf_witness :
  ∃ out, transform table_lag_A keep_lag_window_A 1 = Some out ∧ wf out.
Proof.
  eexists. split; [reflexivity|].
  by apply (transform_output_wf table_lag_A keep_lag_window_A 1).
Defined.

Lemma assign_names_elem_inv ns keys x :
  x ∈ assign_names ns keys → x ∈ ns ∨ x ∈ keys.
Proof.
  revert ns. induction keys as [|k keys IH]; intros ns; simpl; [by left|].
  intros [Hx|Hx]%IH; [|right; by right].
  unfold assign_name in Hx. case_decide; [by left|].
  apply elem_of_app in Hx as [?|Hx]; [by left|].
  apply list_elem_of_singleton in Hx as ->. right. left.
Qed.

(** X2: the columns of the output are the names of the kept fields and
    the generated names of the windowed fields, and nothing else: a column
    of the table that the classification does not list, and a dropped
    field whose name is not generated, is no column of the output. *)
Theorem transform_names_origin df fs n_lags out c :
  transform df fs n_lags = Some out →
  c ∈ names out ↔
  kept fs c ∨ ∃ g i, windowed fs g ∧ i < n_lags ∧ c = new_field g i.
Proof.
  intros Hout. rewrite (transform_names _ _ _ _ Hout).
  rewrite (or_comm (kept fs c)), <- output_columns_elem. split.
  - intros [Hc|Hc]%assign_names_elem_inv; [|done].
    by apply elem_of_nil in Hc.
  - apply assign_names_elem.
Qed.

Lemma transform_names_origin_witness :
  ∃ out, transform table_id_value
           (mkFieldsSetting ["value"] ["value"] []) 2 = Some out
         ∧ ("id" ∉ names out) ∧ "value_T-1" ∈ names out.
Proof.
  assert (is_Some (transform table_id_value
                     (mkFieldsSetting ["value"] ["value"] []) 2))
    as [out Hout] by (vm_compute; eauto).
  exists out. split; [done|].
  pose proof (λ c, transform_names_origin table_id_value
                (mkFieldsSetting ["value"] ["value"] []) 2 out c Hout)
    as Hn.
  split.
  - rewrite (Hn "id").
    intros [(Hid & _)|(g & i & (Hg & _) & _ & Heq)].
    + apply list_elem_of_singleton in Hid. discriminate Hid.
    + apply list_elem_of_singleton in Hg. subst g.
      apply (f_equal (String.get 0)) in Heq. discriminate Heq.
  - apply (Hn "value_T-1"). right. exists "value", 1.
    split_and!; [split; left|lia|reflexivity].
Defined.





End transform_more.

Section transform_contents.
Import Pandas.
Implicit Types (df d out : DataFrame) (fs : FieldsSetting) (f g c : string).
Implicit Types (W D : gset string) (cols asg : list (string * Series)).

(** An assignment of a value as long as the table, also to the empty
    frame and also for a table without rows. *)
Lemma setitem_same_length df d key value :
  length value = index_len df →
  index_len d = index_len df ∨ d = empty_frame →
  setitem d key value
  = mkDataFrame (index_len df) (dict_set key value (columns d)).
Proof.
  intros Hv Hd. destruct (decide (0 < index_len df)) as [Hpos|Hzero].
  - apply setitem_fits; [done| |done]. destruct Hd; [by right|by left].
  - assert (index_len df = 0) as H0 by lia.
    assert (index_len d = 0) as Hd0 by (destruct Hd as [?| ->]; [lia|done]).
    unfold setitem, ensure_valid_index.
    rewrite decide_False by lia. rewrite Hd0, H0.
    by rewrite reindex_id by lia.
Qed.

Lemma transform_fields_all_kept df n pre rest d :
  wf df → columns df = pre ++ rest →
  columns d = pre →
  index_len d = index_len df ∨ d = empty_frame →
  ∃ out, transform_fields df ∅ ∅ n rest.*1 d = Some out
         ∧ columns out = columns df
         ∧ (index_len out = index_len df ∨ (out = empty_frame ∧ rest = [])).
Proof.
  intros Hwf. revert pre d.
  induction rest as [|[k col] rest IH]; intros pre d Hcols Hpre Hd; csimpl.
  - exists d. rewrite app_nil_r in Hcols. split_and!; [done|congruence|].
    destruct Hd; [by left|by right].
  - assert (getitem df k = Some col) as Hk.
    { unfold getitem. apply dict_get_NoDup; [apply Hwf|].
      rewrite Hcols. apply elem_of_app. right. left. }
    assert (k ∉ pre.*1) as Hfresh.
    { destruct Hwf as [Hnd _]. unfold names in Hnd.
      rewrite Hcols, fmap_app in Hnd.
      apply NoDup_app in Hnd as (_ & Hdisj & _).
      intros Hin. apply (Hdisj k Hin). left. }
    rewrite decide_False by set_solver.
    rewrite decide_False by set_solver.
    rewrite Hk. csimpl.
    rewrite (setitem_same_length df) by
      (done || by eapply getitem_length).
    rewrite Hpre, dict_set_fresh by done.
    destruct (IH (pre ++ [(k, col)])
                (mkDataFrame (index_len df) (pre ++ [(k, col)])))
      as (out & -> & Hout & Hidx);
      [by rewrite <- app_assoc|done|by left|].
    exists out. split_and!; [done..|].
    left. destruct Hidx as [?|[-> _]]; [done|].
    exfalso. simpl in Hout. rewrite Hcols in Hout. by destruct pre.
Qed.

Lemma transform_default_setting df n :
  wf df → columns df ≠ [] →
  transform df (mkFieldsSetting (names df) [] []) n = Some df.
Proof.
  intros Hwf Hne.
  destruct (transform_fields_all_kept df n [] (columns df) empty_frame)
    as (out & Hout & Hcols & Hidx); [done..|by right|].
  unfold transform. cbn [all_fields fields_to_window fields_to_drop].
  rewrite !list_to_set_nil. unfold names. rewrite Hout. f_equal.
  destruct Hidx as [Hidx|[_ ?]]; [|done].
  destruct out, df. simpl in *. by subst.
Qed.

(** X4: with nothing windowed and nothing dropped, as [main] sets it up
    when the cache has no entry, [transform] returns the table it was
    given, for every [n_lags]. *)
Theorem transform_all_kept df n_lags :
  wf df → columns df ≠ [] →
  transform df (mkFieldsSetting (names df) [] []) n_lags = Some df.
Proof. apply transform_default_setting. Qed.

Lemma transform_all_kept_witness :
  wf table_two ∧ columns table_two ≠ []
  ∧ transform table_two (mkFieldsSetting ["a"; "b"] [] []) 3
    = Some table_two.
Proof.
  assert (wf table_two) as Hwf by compute_done.
  assert (columns table_two ≠ []) as Hne by done.
  split_and!; [done..|].
  exact (transform_all_kept table_two 3 Hwf Hne).
Defined.

(** The loop on a table with rows, whenever it ends without an error. *)
Lemma transform_fields_columns_Some df W D n fields d out :
  wf df → 0 < index_len df → fits (index_len df) d →
  transform_fields df W D n fields d = Some out →
  fits (index_len df) out
  ∧ columns out
    = assign_all (columns d) (fields ≫= field_assignments df W D n).
Proof.
  intros Hwf Hpos. revert d.
  induction fields as [|f fields IH]; intros d Hd; csimpl.
  - by intros [= <-].
  - rewrite assign_all_app. destruct (decide (f ∈ W)) as [Hw|Hw].
    + destruct (getitem df f) as [col|] eqn:Hcol.
      * rewrite (field_assignments_windowed _ _ _ _ _ col) by done.
        destruct (transform_lags_columns df f col 0 n d Hwf Hpos Hcol)
          as (d1 & -> & Hfit1 & Hd1).
        { destruct Hd as [->|?]; [by right | by left]. }
        csimpl. intros Hout. rewrite <- Hd1. by apply IH.
      * unfold field_assignments at 1. rewrite Hcol.
        destruct n as [|n]; csimpl; [by apply IH|].
        by rewrite Hcol.
    + destruct (decide (f ∈ D)) as [Hdr|Hdr].
      * rewrite field_assignments_dropped by done. by apply IH.
      * destruct (getitem df f) as [col|] eqn:Hcol; csimpl; [|done].
        rewrite (field_assignments_kept _ _ _ _ _ col) by done.
        pose proof (getitem_length _ _ _ Hwf Hcol) as Hlen.
        rewrite (setitem_fits (index_len df)) by done.
        intros Hout. apply IH in Hout; [done|by right].
Qed.

Lemma transform_columns_Some df fs n out :
  wf df → 0 < index_len df → transform df fs n = Some out →
  fits (index_len df) out
  ∧ columns out = assign_all [] (output_assignments df fs n).
Proof.
  intros Hwf Hpos Hout.
  by apply (transform_fields_columns_Some df _ _ n _ empty_frame);
    [..|left|].
Qed.

(** X5: for a table with at least one row, the output of [transform] has
    as many rows as the table, unless it has no column at all. *)
Theorem transform_row_count df fs n_lags out :
  wf df → 0 < len df → transform df fs n_lags = Some out →
  columns out ≠ [] →
  len out = len df ∧ Forall (λ kv, length kv.2 = len df) (columns out).
Proof.
  intros Hwf Hpos Hout Hne.
  destruct (transform_columns_Some df fs n_lags out Hwf Hpos Hout)
    as [[->|Hfit] _]; [done|].
  split; [done|]. unfold len. rewrite <- Hfit.
  exact (proj2 (transform_fields_wf _ _ _ _ _ _ _ empty_frame_wf Hout)).
Qed.

Lemma transform_row_count_witness :
  ∃ out, transform table_A_lag window_A_keep_lag 3 = Some out
         ∧ len out = 2.
Proof.
  assert (wf table_A_lag) as Hwf by compute_done.
  assert (0 < len table_A_lag) as Hpos by compute_done.
  assert (is_Some (transform table_A_lag window_A_keep_lag 3))
    as [out Hout] by (vm_compute; eauto).
  exists out. split; [done|].
  apply (transform_row_count table_A_lag window_A_keep_lag 3 out
           Hwf Hpos Hout).
  intros Hnil.
  assert ("A_T-0" ∈ names out) as Hin.
  { rewrite (transform_names _ _ _ _ Hout). apply assign_names_elem.
    compute_done. }
  unfold names in Hin. rewrite Hnil in Hin. by apply elem_of_nil in Hin.
Defined.

Lemma dict_get_app {V} key (d1 d2 : list (string * V)) :
  dict_get key (d1 ++ d2)
  = match dict_get key d1 with
    | Some v => Some v
    | None => dict_get key d2
    end.
Proof.
  induction d1 as [|[k v] d1 IH]; simpl; [done|]. by case_decide.
Qed.

(** After a run of assignments a name holds what was assigned to it
    last. *)
Lemma dict_get_assign_all key cols asg :
  dict_get key (assign_all cols asg)
  = match dict_get key (reverse asg) with
    | Some v => Some v
    | None => dict_get key cols
    end.
Proof.
  revert cols. induction asg as [|[k v] asg IH]; intros cols; [done|].
  unfold assign_all in *. cbn [foldl]. rewrite IH.
  rewrite reverse_cons, dict_get_app.
  destruct (dict_get key (reverse asg)); [done|]. simpl.
  destruct (decide (k = key)) as [->|Hne].
  - apply dict_get_set_eq.
  - by apply dict_get_set_ne.
Qed.

Lemma dict_get_reverse_last {V} key (v : V) before after :
  key ∉ after.*1 →
  dict_get key (reverse (before ++ (key, v) :: after)) = Some v.
Proof.
  intros Hafter. rewrite reverse_app, reverse_cons, dict_get_app.
  rewrite dict_get_app.
  assert (dict_get key (reverse after) = None) as ->.
  { apply dict_get_None. rewrite fmap_reverse. by rewrite elem_of_reverse. }
  simpl. by rewrite decide_True.
Qed.

(** On the frames with the default index: a name holds the value of the
    last entry for it in the sequence of assignments. *)
Lemma last_assignment_aligned df fs n_lags out before c v after :
  wf df → 0 < len df → transform df fs n_lags = Some out →
  output_assignments df fs n_lags = before ++ (c, v) :: after →
  c ∉ after.*1 →
  getitem out c = Some v.
Proof.
  intros Hwf Hpos Hout Hasg Hafter.
  destruct (transform_columns_Some df fs n_lags out Hwf Hpos Hout)
    as [_ Hcols].
  unfold getitem. rewrite Hcols, dict_get_assign_all, Hasg.
  by rewrite dict_get_reverse_last.
Qed.

End transform_contents.

(** ** More about the settings cache *)

Section cache_more.
Implicit Types (file : cache_file) (fs : FieldsSetting).
Implicit Types (all_cache c : list (string * gmap string (list string))).
Implicit Types (key k filename : string).

Lemma fmap_Some_ne_None {A} (r : result A) : Some <$> r ≠ Ok None.
Proof. by destruct r. Qed.

Lemma load_by_suffix_None filename c :
  load_by_suffix filename c = Ok None
  ↔ Forall (λ kv, endswith kv.1 filename = false) c.
Proof.
  induction c as [|[k p] c IH]; simpl.
  - split; [constructor|done].
  - destruct (endswith k filename) eqn:Hk.
    + split; [by intros ?%fmap_Some_ne_None|].
      intros [H _]%Forall_cons. simpl in H. congruence.
    + rewrite IH. split; [by constructor|by intros [_ ?]%Forall_cons].
Qed.

(** X7: a load finds no classification exactly when no key of the cache
    ends with the file name of the path; a key equal to the path is such
    a key. *)
Theorem load_absent_iff file c key :
  load_all_cache file = Ok c →
  load_fields_setting file key = Ok None
  ↔ Forall (λ kv, endswith kv.1 (path_name key) = false) c.
Proof.
  intros Hc. unfold load_fields_setting. rewrite Hc. csimpl.
  destruct (dict_get key c) as [p|] eqn:Hget.
  - split; [by intros ?%fmap_Some_ne_None|]. intros Hall. exfalso.
    apply dict_get_Some_elem in Hget.
    pose proof (proj1 (Forall_forall _ _) Hall _ Hget) as Hends.
    simpl in Hends. by rewrite endswith_path_name in Hends.
  - apply load_by_suffix_None.
Qed.

Lemma load_absent_iff_witness :
  load_fields_setting cache_two_matches "/x/y/other.csv" = Ok None.
Proof.
  apply (load_absent_iff cache_two_matches
           [("/a/bdata.csv", to_plain setting_x);
            ("/c/data.csv", to_plain setting_y)] "/x/y/other.csv");
    [reflexivity|].
  repeat constructor.
Defined.

(** One save, on the dictionary. *)
Lemma save_step file c key fs :
  cache_wf file → load_all_cache file = Ok c →
  ∃ c', save_fields_setting file key fs = Ok (Stored c')
        ∧ NoDup c'.*1
        ∧ dict_get key c' = Some (to_plain fs)
        ∧ (∀ k, k ≠ key → dict_get k c' = dict_get k c)
        ∧ (cache_plain file → cache_plain (Stored c')).
Proof.
  intros Hwf Hc.
  assert (NoDup c.*1) as Hnd.
  { destruct file; simplify_eq/=; [apply NoDup_nil_2 | done]. }
  pose proof (dict_set_NoDup key (to_plain fs) _ Hnd) as Hnd'.
  unfold save_fields_setting. rewrite Hc. csimpl.
  eexists. split; [done|]. split_and!.
  - by apply sort_keys_NoDup.
  - by rewrite dict_get_sort_keys, dict_get_set_eq.
  - intros k Hk. by rewrite dict_get_sort_keys, dict_get_set_ne.
  - intros Hplain. simpl.
    assert (Forall (λ kv, ∃ fs', kv.2 = to_plain fs') c) as Hall.
    { destruct file; simplify_eq/=; [constructor|done]. }
    assert (Forall (λ kv, ∃ fs', kv.2 = to_plain fs')
              (dict_set key (to_plain fs) c)) as Hset
      by (apply dict_set_Forall; [done|by exists fs]).
    rewrite Forall_forall in Hset |- *. intros kv Hkv. apply Hset.
    by apply (proj1 (sort_keys_elem _ _)).
Qed.

(** X8: saving under one path leaves what a load under another path
    returns by its own key as it was. *)
Theorem save_keeps_other_keys file c key key' fs :
  cache_wf file → load_all_cache file = Ok c →
  key' ≠ key → is_Some (dict_get key' c) →
  ∃ file', save_fields_setting file key fs = Ok file'
           ∧ load_fields_setting file' key'
             = load_fields_setting file key'.
Proof.
  intros Hwf Hc Hne [p Hp].
  destruct (save_step file c key fs Hwf Hc)
    as (c' & Hsave & _ & _ & Hother & _).
  exists (Stored c'). split; [done|].
  unfold load_fields_setting. rewrite Hc. csimpl.
  by rewrite Hother, Hp.
Qed.

Lemma save_keeps_other_keys_witness :
  ∃ file', save_fields_setting cache_two_matches "/a/b/data.csv" setting_y
           = Ok file'
           ∧ load_fields_setting file' "/c/data.csv" = Ok (Some setting_y).
Proof.
  assert (cache_wf cache_two_matches) as Hwf by compute_done.
  destruct (save_keeps_other_keys cache_two_matches
              [("/a/bdata.csv", to_plain setting_x);
               ("/c/data.csv", to_plain setting_y)]
              "/a/b/data.csv" "/c/data.csv" setting_y Hwf eq_refl)
    as (file' & Hsave & Hload); [done|by eexists|].
  exists file'. split; [done|]. rewrite Hload.
  vm_compute. reflexivity.
Defined.

(** A run of saves, on the dictionary: a key holds what was saved under
    it last, or what it held before. *)
Lemma save_all_get file c saves :
  cache_wf file → load_all_cache file = Ok c →
  ∃ file' c', save_all file saves = Ok file'
    ∧ cache_wf file' ∧ load_all_cache file' = Ok c'
    ∧ (cache_plain file → cache_plain file')
    ∧ ∀ k, dict_get k c'
           = match dict_get k (reverse (prod_map id to_plain <$> saves)) with
             | Some p => Some p
             | None => dict_get k c
             end.
Proof.
  revert file c. induction saves as [|[key fs] saves IH];
    intros file c Hwf Hc.
  - exists file, c. by split_and!.
  - destruct (save_step file c key fs Hwf Hc)
      as (c1 & Hsave & Hnd1 & Hkey & Hother & Hplain).
    destruct (IH (Stored c1) c1 Hnd1 eq_refl)
      as (file' & c' & Hall & Hwf' & Hc' & Hplain' & Hget).
    exists file', c'. split_and!; [|done|done|by auto|].
    + unfold save_all in *. cbn [foldl]. csimpl. by rewrite Hsave.
    + intros k. rewrite Hget. csimpl.
      rewrite reverse_cons, dict_get_app.
      destruct (dict_get k (reverse _)); [done|]. simpl.
      destruct (decide (key = k)) as [->|Hne]; [done|]. by apply Hother.
Qed.

Lemma load_plain_Ok file key :
  cache_plain file → (∃ c, load_all_cache file = Ok c) →
  ∃ r, load_fields_setting file key = Ok r.
Proof.
  intros Hplain [c Hc].
  assert (Forall (λ kv, ∃ fs', kv.2 = to_plain fs') c) as Hall.
  { destruct file; simplify_eq/=; [constructor|done]. }
  unfold load_fields_setting. rewrite Hc. csimpl.
  destruct (dict_get key c) as [p|] eqn:Hget.
  - apply dict_get_Some_elem in Hget.
    destruct (proj1 (Forall_forall _ _) Hall _ Hget) as [fs Hfs].
    simpl in Hfs. rewrite Hfs, from_plain_to_plain. by eexists.
  - clear Hget Hc. induction Hall as [|[k p] c [fs Hfs] _ IH]; simpl.
    + by eexists.
    + destruct (endswith k (path_name key)); [|done].
      simpl in Hfs. rewrite Hfs, from_plain_to_plain. by eexists.
Qed.

(** X9: a cache that starts out missing and is written only by
    [save_fields_setting] can always be loaded: after any run of saves
    the save has succeeded and a load under any path returns, with a
    classification or with none, and never raises. *)
Theorem saved_cache_loads saves key :
  ∃ file' r, save_all Missing saves = Ok file'
             ∧ load_fields_setting file' key = Ok r.
Proof.
  destruct (save_all_get Missing [] saves I eq_refl)
    as (file' & c' & Hall & _ & Hc' & Hplain & _).
  destruct (load_plain_Ok file' key (Hplain I)) as [r Hr]; [by eexists|].
  by exists file', r.
Qed.

(** X10: after a run of saves, a load under a path that was saved
    returns the classification saved under it last, whatever was saved
    under other paths before and after. *)
Theorem last_save_wins file c before key fs after :
  cache_wf file → load_all_cache file = Ok c →
  key ∉ after.*1 →
  ∃ file', save_all file (before ++ (key, fs) :: after) = Ok file'
           ∧ load_fields_setting file' key = Ok (Some fs).
Proof.
  intros Hwf Hc Hafter.
  destruct (save_all_get file c (before ++ (key, fs) :: after) Hwf Hc)
    as (file' & c' & Hall & _ & Hc' & _ & Hget).
  exists file'. split; [done|].
  unfold load_fields_setting. rewrite Hc'. csimpl. rewrite Hget.
  rewrite fmap_app, fmap_cons. cbn [prod_map fst snd id].
  rewrite dict_get_reverse_last.
  - by rewrite from_plain_to_plain.
  - rewrite <- list_fmap_compose.
    replace ((fst ∘ prod_map id to_plain) <$> after) with after.*1; [done|].
    apply list_fmap_ext. by intros ? [? ?].
Qed.

Lemma last_save_wins_witness :
  ∃ file', save_all cache_a_a
             [("/d/t.csv", setting_x); ("/d/t.csv", setting_y);
              ("/a/a/data.csv", setting_y)] = Ok file'
           ∧ load_fields_setting file' "/d/t.csv" = Ok (Some setting_y).
Proof.
  assert (cache_wf cache_a_a) as Hwf by compute_done.
  apply (last_save_wins cache_a_a
           [("/a/a/data.csv", to_plain setting_x)]
           [("/d/t.csv", setting_x)] "/d/t.csv" setting_y
           [("/a/a/data.csv", setting_y)] Hwf eq_refl).
  compute_done.
Defined.

End cache_more.

(** ** More about the interactive classification *)

Section session_more.
Implicit Types (st : Session.state) (key : option Z) (keys : list Z).
Implicit Types (fs : FieldsSetting).

Lemma covered_keep (w d k : gset string) f0 f :
  f ∈ w ∨ f ∈ d ∨ f ∈ k →
  f ∈ w ∖ {[f0]} ∨ f ∈ d ∖ {[f0]} ∨ f ∈ k ∪ {[f0]}.
Proof. destruct (decide (f = f0)); set_solver. Qed.

Lemma covered_drop (w d k : gset string) f0 f :
  f ∈ w ∨ f ∈ d ∨ f ∈ k →
  f ∈ w ∖ {[f0]} ∨ f ∈ d ∪ {[f0]} ∨ f ∈ k ∖ {[f0]}.
Proof. destruct (decide (f = f0)); set_solver. Qed.

Lemma covered_window (w d k : gset string) f0 f :
  f ∈ w ∨ f ∈ d ∨ f ∈ k →
  f ∈ w ∪ {[f0]} ∨ f ∈ d ∖ {[f0]} ∨ f ∈ k ∖ {[f0]}.
Proof. destruct (decide (f = f0)); set_solver. Qed.

Lemma go_down_covered st : covered st → covered (Session.go_down st).
Proof.
  unfold covered. by destruct (go_down_fields st) as (-> & -> & -> & ->).
Qed.

Lemma go_up_covered st : covered st → covered (Session.go_up st).
Proof.
  unfold covered. by destruct (go_up_fields st) as (-> & -> & -> & ->).
Qed.

Lemma dispatch_covered key st st' :
  cursor_inv st → covered st →
  Session.dispatch key st = Session.Continue st' → covered st'.
Proof.
  intros Hcur Hcov Hst'. pose proof (dispatch_cases key st Hcur) as Hd.
  rewrite Hst' in Hd.
  inversion Hd as [| |f0 Hf0|f0 Hf0|f0 Hf0| | |]; subst;
    auto using go_down_covered, go_up_covered;
    apply go_down_covered; intros f Hf; specialize (Hcov f Hf);
    cbn [Session.all_fields Session.fields_to_window
         Session.fields_to_drop Session.fields_to_keep] in *.
  - by apply covered_keep.
  - by apply covered_drop.
  - by apply covered_window.
Qed.

Lemma draw_covered st fields :
  (∀ f, f ∈ fields →
     f ∈ Session.fields_to_window st ∨ f ∈ Session.fields_to_drop st
     ∨ f ∈ Session.fields_to_keep st) →
  is_Ok_draw st fields.
Proof.
  induction fields as [|f fields IH]; intros Hcov.
  - by eexists.
  - destruct IH as [lines Hlines]; [intros g Hg; apply Hcov; by right|].
    unfold is_Ok_draw. cbn [Session.draw]. unfold Session.flag.
    destruct (decide (f ∈ Session.fields_to_window st));
      [csimpl; rewrite Hlines; by eexists|].
    destruct (decide (f ∈ Session.fields_to_drop st));
      [csimpl; rewrite Hlines; by eexists|].
    destruct (decide (f ∈ Session.fields_to_keep st));
      [csimpl; rewrite Hlines; by eexists|].
    destruct (Hcov f) as [?|[?|?]]; [left|done..].
Qed.

Lemma init_covered fs : covered (Session.init fs).
Proof.
  destruct fs as [all W D]. intros f Hf. simpl in *.
  destruct (decide (f ∈ (list_to_set W : gset string))); [by left|].
  destruct (decide (f ∈ (list_to_set D : gset string)));
    [right; by left|].
  right. right. apply elem_of_difference. split; [|done].
  apply elem_of_difference. split; [|done]. by apply elem_of_list_to_set.
Qed.

Lemma loop_not_failed key keys st e :
  covered st → cursor_inv st → Session.loop key keys st ≠ Session.Failed e.
Proof.
  revert key st. induction keys as [|key' keys IH];
    intros key st Hcov Hcur; cbn [Session.loop];
    pose proof (dispatch_cases key st Hcur) as Hd;
    destruct (Session.dispatch key st) as [st'| | |e'] eqn:Hst';
    try done; try (by inversion Hd);
    pose proof (dispatch_covered _ _ _ Hcur Hcov Hst') as Hcov';
    pose proof (dispatch_cursor _ _ _ Hcur Hst') as Hcur';
    destruct (draw_covered st' (Session.all_fields st') Hcov')
      as [lines ->]; try done.
  by apply IH.
Qed.

(** X11: whatever classification the session starts from, also one whose
    lists overlap or name unknown fields, and whatever keys are pressed,
    the two errors of the code of the session itself do not occur: every
    field has a flag to be drawn with, so the [Exception] of an
    unexpected field is never raised, and the cursor always selects a
    field, so [all_fields[current_field_idx]] never raises
    [IndexError]. *)
Theorem session_own_errors_unreachable fs keys :
  (∀ field,
     Session.configure_fields_settings_interactively keys fs
     ≠ Session.Failed (UnexpectedField field))
  ∧ Session.configure_fields_settings_interactively keys fs
    ≠ Session.Failed IndexError.
Proof.
  assert (∀ e, e ≠ ValueError →
            Session.configure_fields_settings_interactively keys fs
            ≠ Session.Failed e) as Hno.
  { intros e He. unfold Session.configure_fields_settings_interactively.
    pose proof (init_all_fields fs) as Hall.
    destruct (Session.all_fields (Session.init fs)) as [|f fields] eqn:Hf;
      [by intros [= <-]|].
    apply loop_not_failed; [apply init_covered|].
    apply init_cursor. by rewrite <- Hall. }
  split; [intros field|]; by apply Hno.
Qed.

Lemma marked_go_down st st' f a b c :
  marked st st' f a b c → marked st (Session.go_down st') f a b c.
Proof.
  unfold marked. by destruct (go_down_fields st') as (_ & -> & -> & ->).
Qed.

(** X12: a marking key puts the field under the cursor into the set of
    the key and into no other, whatever sets it was in before, leaves the
    state of every other field as it was, and moves the cursor down by
    one unless it is on the last field. *)
Theorem mark_key_effect st f :
  cursor_inv st →
  list_getitem (Session.all_fields st) (Session.current_field_idx st)
  = Some f →
  (∃ st', Session.dispatch (Some (ord "w")) st = Session.Continue st'
          ∧ marked st st' f True False False
          ∧ Session.current_field_idx st'
            = Session.current_field_idx (Session.go_down st))
  ∧ (∃ st', Session.dispatch (Some (ord "d")) st = Session.Continue st'
            ∧ marked st st' f False True False
            ∧ Session.current_field_idx st'
              = Session.current_field_idx (Session.go_down st))
  ∧ (∀ code, code = ord "k" ∨ code = ord " " →
       ∃ st', Session.dispatch (Some code) st = Session.Continue st'
              ∧ marked st st' f False False True
              ∧ Session.current_field_idx st'
                = Session.current_field_idx (Session.go_down st)).
Proof.
  intros Hcur Hf. split_and!.
  - eexists. split; [|split].
    + unfold Session.dispatch, Session.with_current_field. rewrite Hf.
      reflexivity.
    + apply marked_go_down. unfold marked. simpl.
      split_and!; [set_solver..|]. intros g Hg. set_solver.
    + by rewrite !go_down_idx.
  - eexists. split; [|split].
    + unfold Session.dispatch, Session.with_current_field. rewrite Hf.
      reflexivity.
    + apply marked_go_down. unfold marked. simpl.
      split_and!; [set_solver..|]. intros g Hg. set_solver.
    + by rewrite !go_down_idx.
  - intros code [-> | ->].
    + eexists. split; [|split].
      * unfold Session.dispatch, Session.with_current_field. rewrite Hf.
        reflexivity.
      * apply marked_go_down. unfold marked. simpl.
        split_and!; [set_solver..|]. intros g Hg. set_solver.
      * by rewrite !go_down_idx.
    + eexists. split; [|split].
      * unfold Session.dispatch, Session.with_current_field. rewrite Hf.
        reflexivity.
      * apply marked_go_down. unfold marked. simpl.
        split_and!; [set_solver..|]. intros g Hg. set_solver.
      * by rewrite !go_down_idx.
Qed.

Lemma mark_key_effect_witness :
  ∃ st', Session.dispatch (Some (ord "d")) session_at_end
         = Session.Continue st'
         ∧ "c" ∈ Session.fields_to_drop st'
         ∧ Session.current_field_idx st' = 2%Z.
Proof.
  assert (cursor_inv session_at_end) as Hcur
    by (unfold cursor_inv; simpl; lia).
  destruct (mark_key_effect session_at_end "c" Hcur eq_refl)
    as (_ & (st' & Hst' & (_ & Hd & _) & Hidx) & _).
  exists st'. split_and!; [done|by apply Hd|by rewrite Hidx].
Defined.

Lemma configure_enter fs :
  all_fields fs ≠ [] →
  Session.configure_fields_settings_interactively [ord "010"] fs
  = Session.Returned
      (mkFieldsSetting (all_fields fs)
         (elements (list_to_set (fields_to_window fs) : gset string))
         (elements (list_to_set (fields_to_drop fs) : gset string))).
Proof.
  intros Hne. unfold Session.configure_fields_settings_interactively.
  pose proof (init_all_fields fs) as Hall.
  destruct (Session.all_fields (Session.init fs)) as [|f0 fields] eqn:Hf;
    [by rewrite <- Hall in Hne|].
  cbn [Session.loop].
  assert (Session.dispatch None (Session.init fs)
          = Session.Continue (Session.init fs)) as -> by done.
  destruct (draw_covered (Session.init fs)
              (Session.all_fields (Session.init fs)) (init_covered fs))
    as [lines ->].
  assert (Session.dispatch (Some (ord "010")) (Session.init fs)
          = Session.Break) as -> by done.
  by destruct fs.
Qed.

Lemma transform_elements df all W D n :
  transform df
    (mkFieldsSetting all (elements (list_to_set W : gset string))
       (elements (list_to_set D : gset string))) n
  = transform df (mkFieldsSetting all W D) n.
Proof. unfold transform. simpl. by rewrite !list_to_set_elements_L. Qed.

(** X13: when the user confirms at once, the session returns the fields
    it was given and the same windowed and dropped fields, each listed
    once, and [transform] gives with the returned classification what it
    gives with the one the session started from. *)
Theorem confirm_at_once fs df n_lags :
  all_fields fs ≠ [] →
  ∃ fs', Session.configure_fields_settings_interactively [ord "010"] fs
         = Session.Returned fs'
    ∧ all_fields fs' = all_fields fs
    ∧ (∀ f, f ∈ fields_to_window fs' ↔ f ∈ fields_to_window fs)
    ∧ (∀ f, f ∈ fields_to_drop fs' ↔ f ∈ fields_to_drop fs)
    ∧ NoDup (fields_to_window fs') ∧ NoDup (fields_to_drop fs')
    ∧ transform df fs' n_lags = transform df fs n_lags.
Proof.
  intros Hne. eexists. split; [by apply configure_enter|].
  destruct fs as [all W D]. simpl. split_and!.
  - done.
  - intros f. by rewrite elem_of_elements, elem_of_list_to_set.
  - intros f. by rewrite elem_of_elements, elem_of_list_to_set.
  - apply NoDup_elements.
  - apply NoDup_elements.
  - apply transform_elements.
Qed.

Lemma confirm_at_once_witness :
  ∃ fs', Session.configure_fields_settings_interactively [ord "010"]
           window_and_drop_value = Session.Returned fs'
         ∧ transform table_id_value fs' 2
           = transform table_id_value window_and_drop_value 2.
Proof.
  assert (all_fields window_and_drop_value ≠ []) as Hne by done.
  destruct (confirm_at_once window_and_drop_value table_id_value 2 Hne)
    as (fs' & Hfs' & _ & _ & _ & _ & _ & Ht).
  by exists fs'.
Defined.

End session_more.

Section screen_facts.
Implicit Types (st : Session.state) (fields : list string).

Lemma string_length_app (s1 s2 : string) :
  String.length (s1 +:+ s2) = String.length s1 + String.length s2.
Proof. induction s1 as [|c s1 IH]; simpl; [done|]. by rewrite IH. Qed.

Lemma field_lines_spec st i fields items :
  Screen.field_lines st i fields = Ok items →
  Screen.row <$> items = seq (i + 1) (length fields)
  ∧ Forall (λ a,
      Screen.current a
      = bool_decide (Z.of_nat (Screen.row a)
                     = (Session.current_field_idx st + 1)%Z)) items.
Proof.
  revert i items. induction fields as [|f fields IH]; intros i items.
  - intros [= <-]. by split.
  - cbn [Screen.field_lines].
    destruct (Session.flag st f) as [fl|]; csimpl; [|done].
    destruct (Screen.field_lines st (S i) fields) as [rest|] eqn:Hrest;
      csimpl; [|done].
    intros [= <-]. destruct (IH _ _ Hrest) as [Hrows Hall]. split.
    + csimpl. by rewrite Hrows.
    + constructor; [|done]. simpl. apply bool_decide_ext. lia.
Qed.

(** X14: in every round of drawing, [pad.addstr] is called once for
    every row from 0 to [len(all_fields)], in this order; every row it
    is called with is below [pad_height]; and with the cursor at or
    below the first field, the call made with the highlight on is the
    one for the row of the cursor, [current_field_idx + 1], and no
    other. *)
Theorem redraw_rows st items :
  (0 ≤ Session.current_field_idx st)%Z →
  Screen.redraw st = Ok items →
  Screen.row <$> items = seq 0 (S (length (Session.all_fields st)))
  ∧ Forall (λ a,
      Screen.row a < Screen.pad_height (Session.all_fields st)
      ∧ (Screen.current a = true ↔
         Z.of_nat (Screen.row a)
         = (Session.current_field_idx st + 1)%Z)) items.
Proof.
  intros Hidx. unfold Screen.redraw.
  destruct (Screen.field_lines st 0 (Session.all_fields st))
    as [lines|] eqn:Hlines; csimpl; [|done].
  intros [= <-]. destruct (field_lines_spec _ _ _ _ Hlines) as [Hrows Hall].
  assert (Screen.row <$> Screen.mkAddstr 0 Screen.GUIDE_TEXT false :: lines
          = seq 0 (S (length (Session.all_fields st)))) as Hseq.
  { csimpl. by rewrite Hrows. }
  split; [done|].
  assert (Forall (λ a, Screen.row a
                       < Screen.pad_height (Session.all_fields st))
            (Screen.mkAddstr 0 Screen.GUIDE_TEXT false :: lines)) as Hlt.
  { apply Forall_forall. intros a Ha.
    apply (list_elem_of_fmap_2 Screen.row) in Ha. rewrite Hseq in Ha.
    apply elem_of_seq in Ha. unfold Screen.pad_height. lia. }
  apply Forall_cons in Hlt as [Hlt0 Hlt]. constructor.
  - split; [done|]. simpl. split; [done|lia].
  - rewrite Forall_forall in Hall, Hlt |- *. intros a Ha.
    split; [by apply Hlt|].
    rewrite (Hall a Ha). apply bool_decide_eq_true.
Qed.

Lemma redraw_rows_witness :
  ∃ items, Screen.redraw session_at_end = Ok items
           ∧ Screen.row <$> items = [0; 1; 2; 3]
           ∧ Screen.current <$> items = [false; false; false; true].
Proof.
  destruct (Screen.redraw session_at_end) as [items|e] eqn:Hitems;
    [|vm_compute in Hitems; discriminate Hitems].
  exists items.
  assert (0 ≤ Session.current_field_idx session_at_end)%Z as Hidx
    by (simpl; lia).
  destruct (redraw_rows session_at_end items Hidx Hitems) as [Hrows _].
  split; [done|]. split; [exact Hrows|].
  vm_compute in Hitems. injection Hitems as <-. reflexivity.
Defined.

(** X15: on a terminal of at least one row, the part of the pad that
    [refresh] shows lies within the pad and contains the line of the
    field under the cursor; the guide line is shown exactly while the
    cursor is above the last row of the terminal. *)
Theorem refresh_shows_cursor st height width a :
  cursor_inv st → (1 ≤ height)%Z →
  Screen.refresh st height width = Ok a →
  Screen.shown_row a (Session.current_field_idx st + 1)
  ∧ (0 ≤ Screen.pminrow a)%Z
  ∧ (Screen.pminrow a + (Screen.smaxrow a - Screen.sminrow a)
     ≤ Z.of_nat (Screen.pad_height (Session.all_fields st)) - 1)%Z
  ∧ (Screen.shown_row a 0
     ↔ (Session.current_field_idx st + 2 ≤ height)%Z).
Proof.
  intros [Hlo Hhi] Hheight. unfold Screen.refresh.
  destruct (Screen.pad_width (Session.all_fields st)); csimpl; [|done].
  intros [= <-]. unfold Screen.shown_row, Screen.pad_height. simpl.
  rewrite Nat2Z.inj_add. lia.
Qed.

Lemma refresh_shows_cursor_witness :
  ∃ a, Screen.refresh session_at_end 2 10 = Ok a
       ∧ Screen.shown_row a 3 ∧ ¬ Screen.shown_row a 0.
Proof.
  assert (cursor_inv session_at_end) as Hcur
    by (unfold cursor_inv; simpl; lia).
  eexists. split; [reflexivity|].
  destruct (refresh_shows_cursor session_at_end 2 10 _ Hcur
              ltac:(lia) eq_refl) as (Hshown & _ & _ & Hguide).
  split; [exact Hshown|]. intros H0%Hguide. simpl in H0. lia.
Defined.

End screen_facts.

(** ** The command line *)

Section args_facts.
Implicit Types (n m : Z) (s : string) (cs : list ascii).

Lemma float_of_int_small n :
  (0 < n)%Z → (Z.log2 n - 52 ≤ 0)%Z →
  Args.float_of_int n = Args.Accepted n.
Proof.
  intros Hpos Hsh. unfold Args.float_of_int.
  rewrite Z.abs_eq by lia.
  destruct (Z.leb_spec (Z.log2 n + 1 - 53) 0); [done|lia].
Qed.

(** The conversion of a positive number with more than 53 bits: [q] and
    [r] are the leading 53 bits and the rest. *)
Lemma float_of_int_large n :
  (0 < n)%Z → (0 < Z.log2 n - 52)%Z →
  let shift := (Z.log2 n - 52)%Z in
  let q := (n / 2 ^ shift)%Z in
  let r := (n mod 2 ^ shift)%Z in
  (r = 0%Z → (n < 2 ^ 1024)%Z → Args.float_of_int n = Args.Accepted n)
  ∧ (r = 0%Z → (2 ^ 1024 ≤ n)%Z → Args.float_of_int n = Args.OverflowError)
  ∧ (r ≠ 0%Z → Args.float_of_int n ≠ Args.Accepted n).
Proof.
  intros Hpos Hsh shift q r.
  assert (0 < 2 ^ shift)%Z as Hpow by (apply Z.pow_pos_nonneg; lia).
  assert (0 < 2 ^ (shift - 1))%Z as Hhalf
    by (apply Z.pow_pos_nonneg; lia).
  assert (n = q * 2 ^ shift + r)%Z as Hn.
  { unfold q, r. rewrite Z.mul_comm. apply Z.div_mod. lia. }
  assert (0 ≤ r < 2 ^ shift)%Z as Hr
    by (unfold r; apply Z.mod_pos_bound; lia).
  unfold Args.float_of_int. rewrite Z.abs_eq by lia.
  replace (Z.log2 n + 1 - 53)%Z with shift by (unfold shift; lia).
  destruct (Z.leb_spec shift 0) as [?|_]; [unfold shift in *; lia|].
  fold q r. rewrite (Z.sgn_pos n) by done.
  split_and!.
  - intros Hr0 Hlt. rewrite Hr0.
    destruct (Z.ltb_spec (2 ^ (shift - 1)) 0) as [?|_]; [lia|].
    destruct (Z.eqb_spec 0 (2 ^ (shift - 1))) as [?|_]; [lia|].
    simpl. destruct (Z.leb_spec (2 ^ 1024) (q * 2 ^ shift)) as [?|_];
      [lia|]. f_equal. lia.
  - intros Hr0 Hge. rewrite Hr0.
    destruct (Z.ltb_spec (2 ^ (shift - 1)) 0) as [?|_]; [lia|].
    destruct (Z.eqb_spec 0 (2 ^ (shift - 1))) as [?|_]; [lia|].
    simpl. destruct (Z.leb_spec (2 ^ 1024) (q * 2 ^ shift)) as [_|?];
      [done|lia].
  - intros Hr0.
    destruct ((2 ^ (shift - 1) <? r)%Z
              || (r =? 2 ^ (shift - 1))%Z && Z.odd q);
      match goal with
      | |- context [Z.leb (2 ^ 1024)%Z ?v] =>
          destruct (Z.leb_spec (2 ^ 1024) v)
      end; try done; intros [= Heq]; nia.
Qed.

(** X16: [positive_int] returns the number it was given, and it accepts
    exactly the positive numbers that a double holds exactly, so every
    number from 1 to [2^53]; zero and the negative numbers are
    rejected. *)
Theorem positive_int_accepts n :
  (Args.positive_int n = Args.Accepted n ↔ (0 < n)%Z ∧ representable n)
  ∧ (∀ m, Args.positive_int n = Args.Accepted m → m = n)
  ∧ ((0 < n ≤ 2 ^ 53)%Z → Args.positive_int n = Args.Accepted n)
  ∧ ((n ≤ 0)%Z → ∃ message,
       Args.positive_int n = Args.ArgumentTypeError message).
Proof.
  assert (Args.positive_int n = Args.Accepted n
          ↔ (0 < n)%Z ∧ representable n) as Hiff.
  { unfold Args.positive_int, representable.
    destruct (Z.ltb_spec 0 n) as [Hpos|Hneg]; [|split; [done|lia]].
    destruct (Z.le_gt_cases (Z.log2 n - 52) 0) as [Hsh|Hsh].
    - rewrite float_of_int_small, Z.eqb_refl by done.
      split; [intros _|done]. split; [done|].
      rewrite Z.max_l by done. rewrite Z.pow_0_r, Z.mod_1_r.
      split; [|done]. apply Z.log2_lt_pow2; lia.
    - rewrite Z.max_r by lia.
      destruct (float_of_int_large n Hpos ltac:(lia))
        as (Hexact & Hover & Hinexact).
      destruct (decide (n mod 2 ^ (Z.log2 n - 52) = 0)%Z) as [Hr|Hr].
      + destruct (Z.lt_ge_cases n (2 ^ 1024)) as [Hlt|Hge].
        * rewrite Hexact, Z.eqb_refl by done. by split.
        * rewrite Hover by done. split; [done|lia].
      + split; [|by intros (_ & _ & ?)].
        specialize (Hinexact Hr).
        destruct (Args.float_of_int n) as [x| |]; try done.
        destruct (Z.eqb_spec n x) as [->|_]; done. }
  split_and!.
  - done.
  - unfold Args.positive_int. intros m.
    destruct (0 <? n)%Z; [|done].
    destruct (Args.float_of_int n) as [x| |]; try done.
    destruct (n =? x)%Z; [|done]. by intros [= <-].
  - intros [Hpos Hle]. apply Hiff. split; [done|].
    unfold representable. split.
    + apply Z.le_lt_trans with (2 ^ 53)%Z; [done|].
      by apply Z.pow_lt_mono_r.
    + destruct (Z.eq_dec n (2 ^ 53)%Z) as [->|Hne].
      * rewrite Z.log2_pow2 by done. reflexivity.
      * rewrite Z.max_l, Z.pow_0_r, Z.mod_1_r; [done|].
        assert (Z.log2 n < 53)%Z by (apply Z.log2_lt_pow2; lia). lia.
  - intros Hneg. unfold Args.positive_int.
    destruct (Z.ltb_spec 0 n); [lia|]. by eexists.
Qed.

Lemma positive_int_accepts_witness :
  Args.positive_int 3 = Args.Accepted 3%Z
  ∧ ¬ representable (2 ^ 53 + 1).
Proof.
  destruct (positive_int_accepts 3) as (_ & _ & Hsmall & _).
  split; [apply Hsmall; lia|].
  destruct (positive_int_accepts (2 ^ 53 + 1)) as (Hiff & _).
  intros Hrep.
  assert (Args.positive_int (2 ^ 53 + 1) = Args.Accepted (2 ^ 53 + 1)%Z)
    as Hacc by (apply Hiff; split; [lia|done]).
  vm_compute in Hacc. discriminate Hacc.
Defined.

End args_facts.

Section path_facts.
Implicit Types (s stem ext : string) (cs : list ascii) (c : ascii).

Lemma list_ascii_app s1 s2 :
  String.list_ascii_of_string (s1 +:+ s2)
  = String.list_ascii_of_string s1 ++ String.list_ascii_of_string s2.
Proof. induction s1 as [|c s1 IH]; simpl; [done|]. by rewrite IH. Qed.

Lemma string_of_list_app cs1 cs2 :
  String.string_of_list_ascii (cs1 ++ cs2)
  = String.string_of_list_ascii cs1 +:+ String.string_of_list_ascii cs2.
Proof. induction cs1 as [|c cs1 IH]; simpl; [done|]. by rewrite IH. Qed.

Lemma rfind_dot_app cs1 cs2 :
  Args.rfind_dot (cs1 ++ cs2)
  = match Args.rfind_dot cs2 with
    | Some i => Some (length cs1 + i)
    | None => Args.rfind_dot cs1
    end.
Proof.
  induction cs1 as [|c cs1 IH]; simpl.
  - by destruct (Args.rfind_dot cs2).
  - rewrite IH. by destruct (Args.rfind_dot cs2).
Qed.

Lemma rfind_dot_lt cs i : Args.rfind_dot cs = Some i → i < length cs.
Proof.
  revert i. induction cs as [|c cs IH]; intros i; simpl; [done|].
  destruct (Args.rfind_dot cs) as [j|].
  - intros [= <-]. specialize (IH j eq_refl). lia.
  - case_decide; [|done]. intros [= <-]. lia.
Qed.

Lemma lower_char_dot c : Args.lower_char c = "."%char → c = "."%char.
Proof.
  unfold Args.lower_char. case_decide as Hc; [|done].
  intros Heq. apply (f_equal nat_of_ascii) in Heq.
  rewrite nat_ascii_embedding in Heq by lia.
  change (nat_of_ascii "."%char) with 46 in Heq. lia.
Qed.

Lemma lower_char_not_dot c x :
  Args.lower_char c = x → x ≠ "."%char → c ≠ "."%char.
Proof. intros Hc Hx ->. by apply Hx. Qed.

(** The shapes of a text whose lower case is [.csv]. *)
Lemma lower_csv ext :
  Args.lower ext = ".csv" →
  ∃ c1 c2 c3,
    String.list_ascii_of_string ext = ["."%char; c1; c2; c3]
    ∧ c1 ≠ "."%char ∧ c2 ≠ "."%char ∧ c3 ≠ "."%char.
Proof.
  destruct ext as [|c0 [|c1 [|c2 [|c3 [|? ?]]]]]; simpl; try done.
  intros [= H0 H1 H2 H3]. apply lower_char_dot in H0 as ->.
  exists c1, c2, c3.
  split_and!; [done|by eapply lower_char_not_dot..].
Qed.

Lemma suffix_of_name s stem ext :
  Args.name s = stem +:+ ext → stem ≠ EmptyString →
  Args.lower ext = ".csv" → Args.suffix s = ext.
Proof.
  intros Hname Hstem Hext.
  destruct (lower_csv ext Hext) as (c1 & c2 & c3 & Hcs & H1 & H2 & H3).
  assert (Args.rfind_dot ["."%char; c1; c2; c3] = Some 0) as Hfind.
  { cbn [Args.rfind_dot]. rewrite !decide_False by done.
    by rewrite decide_True. }
  unfold Args.suffix.
  rewrite Hname, list_ascii_app, Hcs, rfind_dot_app, Hfind.
  rewrite Nat.add_0_r.
  assert (0 < length (String.list_ascii_of_string stem)) as Hlen.
  { destruct stem; [done|simpl; lia]. }
  rewrite decide_True by (rewrite length_app; simpl; lia).
  rewrite drop_app_length, <- Hcs.
  apply String.string_of_list_ascii_of_string.
Qed.

Lemma suffix_split s :
  Args.suffix s ≠ EmptyString →
  ∃ stem, Args.name s = stem +:+ Args.suffix s ∧ stem ≠ EmptyString.
Proof.
  unfold Args.suffix.
  destruct (Args.rfind_dot (String.list_ascii_of_string (Args.name s)))
    as [i|] eqn:Hi; [|done].
  case_decide as Hrange; [|done]. intros _.
  exists (String.string_of_list_ascii
            (take i (String.list_ascii_of_string (Args.name s)))).
  split.
  - rewrite <- string_of_list_app, take_drop.
    by rewrite String.string_of_list_ascii_of_string.
  - destruct (String.list_ascii_of_string (Args.name s)) as [|c cs];
      [simpl in Hrange; lia|].
    destruct i; [lia|done].
Qed.

(** X17: [path_with_suffix] accepts a text exactly when the file name of
    the path is a non-empty stem followed by [.csv] in small or capital
    letters, and then returns the path of the text; the [suffix] it is
    called with has no part in the decision. *)
Theorem path_with_suffix_accepts suffix_arg s :
  (Args.path_with_suffix suffix_arg s = Args.Accepted s
   ↔ ∃ stem ext, Args.name s = stem +:+ ext ∧ stem ≠ EmptyString
                 ∧ Args.lower ext = ".csv")
  ∧ (∀ p, Args.path_with_suffix suffix_arg s = Args.Accepted p → p = s)
  ∧ (∀ other p,
       Args.path_with_suffix suffix_arg s = Args.Accepted p
       ↔ Args.path_with_suffix other s = Args.Accepted p).
Proof.
  unfold Args.path_with_suffix. split_and!.
  - split.
    + case_decide as Hlow; [|done]. intros _.
      destruct (suffix_split s) as (stem & Hname & Hstem).
      { intros Hnil. by rewrite Hnil in Hlow. }
      by exists stem, (Args.suffix s).
    + intros (stem & ext & Hname & Hstem & Hext).
      rewrite (suffix_of_name s stem ext) by done.
      by rewrite decide_True.
  - intros p. case_decide; [|done]. by intros [= <-].
  - intros other p. by case_decide.
Qed.

Lemma path_with_suffix_accepts_witness :
  Args.path_with_suffix ".csv" "in/Data.CSV" = Args.Accepted "in/Data.CSV"
  ∧ Args.path_with_suffix ".csv" "in/.csv" ≠ Args.Accepted "in/.csv".
Proof.
  split.
  - apply (proj1 (path_with_suffix_accepts ".csv" "in/Data.CSV")).
    by exists "Data", ".CSV".
  - intros Hacc.
    apply (proj1 (path_with_suffix_accepts ".csv" "in/.csv")) in Hacc
      as (stem & ext & Hname & Hstem & Hext).
    change (Args.name "in/.csv") with ".csv" in Hname.
    destruct ext as [|c0 [|c1 [|c2 [|c3 [|? ?]]]]];
      simpl in Hext; try discriminate Hext.
    apply (f_equal String.length) in Hname.
    rewrite string_length_app in Hname.
    destruct stem; [done|]. simpl in Hname. lia.
Defined.

End path_facts.

(** ** [main]: load, session, save, transform *)

Section main_facts.
Import Pandas.
Implicit Types (df : DataFrame) (file : cache_file) (fs : FieldsSetting).

Lemma loop_returned key keys st fs :
  cursor_inv st → Session.loop key keys st = Session.Returned fs →
  ∃ W D : gset string,
    fs = mkFieldsSetting (Session.all_fields st) (elements W) (elements D).
Proof.
  revert key st. induction keys as [|key' keys IH];
    intros key st Hcur; cbn [Session.loop];
    destruct (Session.dispatch key st) as [st1| | |e] eqn:Hst1; try done;
    try (intros [= <-]; by eauto);
    destruct (Session.draw st1 (Session.all_fields st1)); try done.
  rewrite <- (dispatch_all_fields _ _ _ Hcur Hst1).
  apply IH. by eapply dispatch_cursor.
Qed.

Lemma configure_returned keys fs fs' :
  Session.configure_fields_settings_interactively keys fs
  = Session.Returned fs' →
  all_fields fs ≠ []
  ∧ ∃ W D : gset string,
      fs' = mkFieldsSetting (all_fields fs) (elements W) (elements D).
Proof.
  unfold Session.configure_fields_settings_interactively.
  pose proof (init_all_fields fs) as Hall.
  destruct (Session.all_fields (Session.init fs)) as [|f0 fields] eqn:Hf;
    [done|].
  intros Hret. split; [by rewrite <- Hall|].
  apply loop_returned in Hret; [by rewrite Hf, Hall in Hret|].
  apply init_cursor. by rewrite <- Hall.
Qed.

Lemma load_Ok_cache file key r :
  load_fields_setting file key = Ok r → ∃ c, load_all_cache file = Ok c.
Proof.
  unfold load_fields_setting.
  destruct (load_all_cache file); csimpl; [eauto|done].
Qed.

Lemma names_nil df : columns df ≠ [] → names df ≠ [].
Proof. unfold names. by destruct (columns df). Qed.

(** X18: the first run on a table, with no entry of the cache matching
    the input and the user confirming at once: the output is the table as
    read, and the cache then holds, under the input path, the
    classification that keeps every column. *)
Theorem main_first_run df file input_file_path n_lags :
  wf df → columns df ≠ [] → cache_wf file →
  load_fields_setting file input_file_path = Ok None →
  ∃ file', main df file input_file_path n_lags [ord "010"]
           = RunSaved file' (Some df)
    ∧ load_fields_setting file' input_file_path
      = Ok (Some (mkFieldsSetting (names df) [] [])).
Proof.
  intros Hwf Hne Hcache Hload.
  destruct (load_Ok_cache _ _ _ Hload) as [c Hc].
  destruct (save_then_load file c input_file_path
              (mkFieldsSetting (names df) [] []) Hcache Hc)
    as (file' & Hsave & _ & Hload').
  exists file'. split; [|done].
  unfold main. rewrite Hload. cbn [start_setting].
  rewrite configure_enter by by apply names_nil.
  cbn [all_fields fields_to_window fields_to_drop].
  rewrite !list_to_set_nil, !elements_empty, Hsave.
  by rewrite transform_default_setting.
Qed.

Lemma main_first_run_witness :
  ∃ file', main table_two Missing "/d/t.csv" 3 [ord "010"]
           = RunSaved file' (Some table_two)
    ∧ load_fields_setting file' "/d/t.csv"
      = Ok (Some (mkFieldsSetting ["a"; "b"] [] [])).
Proof.
  assert (wf table_two) as Hwf by compute_done.
  assert (columns table_two ≠ []) as Hne by done.
  assert (cache_wf Missing) as Hcache by done.
  assert (load_fields_setting Missing "/d/t.csv" = Ok None) as Hload
    by reflexivity.
  exact (main_first_run table_two Missing "/d/t.csv" 3 Hwf Hne Hcache Hload).
Defined.



(** X20: a run that wrote the cache is repeated by a second run on the
    cache it left in which the user confirms at once: the output is the
    same, and the classification the cache holds for the input after the
    second run has the same fields and, as sets, the same windowed and
    dropped fields as after the first. *)
Theorem main_rerun df file input_file_path n_lags keys file' df_new :
  cache_wf file →
  main df file input_file_path n_lags keys = RunSaved file' df_new →
  ∃ file'' fs' fs'',
    main df file' input_file_path n_lags [ord "010"]
    = RunSaved file'' df_new
    ∧ load_fields_setting file' input_file_path = Ok (Some fs')
    ∧ load_fields_setting file'' input_file_path = Ok (Some fs'')
    ∧ all_fields fs'' = all_fields fs'
    ∧ (∀ f, f ∈ fields_to_window fs'' ↔ f ∈ fields_to_window fs')
    ∧ (∀ f, f ∈ fields_to_drop fs'' ↔ f ∈ fields_to_drop fs').
Proof.
  intros Hcache. unfold main at 1.
  destruct (load_fields_setting file input_file_path)
    as [loaded|] eqn:Hload; [|done].
  destruct (Session.configure_fields_settings_interactively keys
              (start_setting df loaded))
    as [fs| | |] eqn:Hses; try done.
  destruct (configure_returned _ _ _ Hses) as (Hne & W & D & Hfs).
  destruct (load_Ok_cache _ _ _ Hload) as [c Hc].
  destruct (save_then_load file c input_file_path fs Hcache Hc)
    as (file1 & Hsave & Hcache1 & Hload1).
  rewrite Hsave. intros [= <- <-].
  assert (all_fields fs ≠ []) as Hne' by by rewrite Hfs.
  destruct (load_Ok_cache _ _ _ Hload1) as [c1 Hc1].
  destruct (save_then_load file1 c1 input_file_path
              (mkFieldsSetting (all_fields fs)
                 (elements (list_to_set (fields_to_window fs)
                            : gset string))
                 (elements (list_to_set (fields_to_drop fs)
                            : gset string))) Hcache1 Hc1)
    as (file2 & Hsave2 & _ & Hload2).
  eexists file2, fs, _. split_and!; [|exact Hload1|exact Hload2|done|..].
  - unfold main. rewrite Hload1. cbn [start_setting].
    rewrite (configure_enter fs Hne'), Hsave2. f_equal.
    destruct fs. apply transform_elements.
  - intros f. simpl. by rewrite elem_of_elements, elem_of_list_to_set.
  - intros f. simpl. by rewrite elem_of_elements, elem_of_list_to_set.
Qed.

Lemma main_rerun_witness :
  ∃ file' df_new file'',
    main table_two Missing "/d/t.csv" 2 [ord "w"; ord "d"; ord "010"]
    = RunSaved file' df_new
    ∧ main table_two file' "/d/t.csv" 2 [ord "010"]
      = RunSaved file'' df_new.
Proof.
  destruct (main table_two Missing "/d/t.csv" 2
              [ord "w"; ord "d"; ord "010"]) as [| | |file' df_new] eqn:Hrun;
    try (vm_compute in Hrun; discriminate Hrun).
  assert (cache_wf Missing) as Hcache by done.
  destruct (main_rerun table_two Missing "/d/t.csv" 2
              [ord "w"; ord "d"; ord "010"] file' df_new Hcache Hrun)
    as (file'' & _ & _ & Hrerun & _).
  by exists file', df_new, file''.
Defined.



End main_facts.

(** ** Tables with row labels *)

Section labelled_facts.
Implicit Types (p q : Pandas.DataFrame) (df d out : Labelled.DataFrame).
Implicit Types (fs : FieldsSetting) (f key : string).

Lemma range_index_length n : length (Labelled.range_index n) = n.
Proof. unfold Labelled.range_index. by rewrite length_fmap, length_seq. Qed.

Lemma range_index_nil n : Labelled.range_index n = [] ↔ n = 0.
Proof.
  split; [|by intros ->]. intros Hnil.
  by rewrite <- (range_index_length n), Hnil.
Qed.

Lemma range_index_inj m k :
  Labelled.range_index m = Labelled.range_index k → m = k.
Proof.
  intros Heq. by rewrite <- (range_index_length m), Heq, range_index_length.
Qed.

Lemma range_index_NoDup n : NoDup (Labelled.range_index n).
Proof.
  apply NoDup_fmap_2_strong; [|apply NoDup_seq].
  intros i j _ _ [= Hij]. lia.
Qed.

Lemma get_loc_range (a n j : nat) :
  Labelled.get_loc (Labelled.LInt (Z.of_nat j))
    ((λ i, Labelled.LInt (Z.of_nat i)) <$> seq a n)
  = if decide (a ≤ j < a + n) then Some (j - a) else None.
Proof.
  revert a. induction n as [|n IH]; intros a; csimpl.
  - by rewrite decide_False by lia.
  - destruct (decide (Labelled.LInt (Z.of_nat a) = Labelled.LInt (Z.of_nat j)))
      as [[= Heq]|Hne].
    + apply Nat2Z.inj in Heq as ->. rewrite decide_True by lia.
      f_equal. lia.
    + assert (a ≠ j) as Haj by (by intros ->). rewrite IH.
      destruct (decide (S a ≤ j < S a + n)).
      * rewrite decide_True by lia. simpl. f_equal. lia.
      * by rewrite decide_False by lia.
Qed.

(** Alignment by label on default indexes is alignment by position. *)
Lemma reindex_range k values :
  Labelled.reindex (Labelled.range_index k)
    (Labelled.mkSeries (Labelled.range_index (length values)) values)
  = Pandas.reindex k values.
Proof.
  unfold Labelled.reindex, Pandas.reindex, Labelled.range_index. simpl.
  apply list_eq. intros i. rewrite !list_lookup_fmap.
  destruct (decide (i < k)) as [Hi|Hi].
  - rewrite lookup_seq_lt by done. simpl. rewrite get_loc_range.
    destruct (decide (i < length values)) as [Hv|Hv].
    + rewrite decide_True by lia. simpl. rewrite Nat.sub_0_r.
      destruct (lookup_lt_is_Some_2 values i Hv) as [v Hv'].
      rewrite Hv'. simpl.
      rewrite lookup_app_l by (rewrite length_take; lia).
      rewrite lookup_take_lt by done. by rewrite Hv'.
    + rewrite decide_False by lia. simpl.
      rewrite lookup_app_r by (rewrite length_take; lia).
      rewrite length_take. symmetry. apply lookup_replicate_2. lia.
  - rewrite lookup_seq_ge by lia. simpl. symmetry.
    apply lookup_ge_None.
    rewrite length_app, length_take, length_replicate. lia.
Qed.

Lemma len_of_default p : Labelled.len (Labelled.of_default p) = Pandas.index_len p.
Proof. apply range_index_length. Qed.

Lemma of_default_positional df :
  Labelled.default_index df → Labelled.of_default (Labelled.positional df) = df.
Proof. intros Hdf. destruct df as [idx cols]. unfold Labelled.of_default. simpl. by rewrite <- Hdf. Qed.

Lemma positional_wf df : Labelled.wf df → Pandas.wf (Labelled.positional df).
Proof. by intros [? ?]. Qed.

(** An assignment to a frame with the default index of a value with the
    default index is the assignment by position. *)
Lemma setitem_of_default p key values :
  Pandas.wf p →
  Labelled.setitem (Labelled.of_default p) key
    (Labelled.mkSeries (Labelled.range_index (length values)) values)
  = Ok (Labelled.of_default (Pandas.setitem p key values)).
Proof.
  intros [_ Hlen].
  unfold Labelled.setitem, Pandas.setitem, Labelled.ensure_valid_index,
    Pandas.ensure_valid_index, Labelled.reindex_for_setitem,
    Labelled.of_default.
  cbn [Labelled.index Labelled.columns Labelled.s_index Labelled.s_values].
  destruct (decide (Pandas.index_len p = 0 ∧ 0 < length values))
    as [[H0 Hv]|Hno].
  - rewrite decide_True by (split; [by apply range_index_nil | done]).
    cbn [Labelled.index Labelled.columns Pandas.index_len Pandas.columns].
    rewrite decide_True by by left. csimpl.
    rewrite reindex_id by done. do 3 f_equal.
    apply Forall_fmap_ext_1. eapply Forall_impl; [exact Hlen|].
    intros [k c] Hc. simpl in *. unfold prod_map. simpl. f_equal.
    rewrite H0 in Hc. rewrite H0. change [] with (Labelled.range_index 0).
    rewrite <- Hc. by rewrite reindex_range.
  - rewrite decide_False.
    2:{ intros [Hnil ?]. apply range_index_nil in Hnil. by apply Hno. }
    cbn [Labelled.index Labelled.columns Pandas.index_len Pandas.columns].
    destruct (decide (Labelled.range_index (length values)
                      = Labelled.range_index (Pandas.index_len p)
                      ∨ Labelled.range_index (Pandas.index_len p) = []))
      as [Heq|Hne]; csimpl.
    + rewrite reindex_id; [done|].
      destruct Heq as [Heq%range_index_inj|Hnil%range_index_nil]; [done|].
      destruct (decide (0 < length values)); [|lia]. by destruct Hno.
    + rewrite decide_True by apply range_index_NoDup. csimpl.
      by rewrite reindex_range.
Qed.

Lemma transform_lags_of_default p f lags q :
  Pandas.wf p → Pandas.wf q →
  agrees (Labelled.transform_lags (Labelled.of_default p) f lags
            (Labelled.of_default q))
         (transform_lags p f lags q).
Proof.
  intros Hp. revert q. induction lags as [|i lags IH]; intros q Hq.
  - done.
  - cbn [Labelled.transform_lags transform_lags].
    unfold Labelled.getitem, Labelled.column, Pandas.getitem.
    cbn [Labelled.of_default Labelled.columns].
    destruct (dict_get f (Pandas.columns p)) as [col|] eqn:Hcol; csimpl;
      [|by exists f].
    unfold Labelled.lag_value. cbn [Labelled.s_values].
    rewrite len_of_default, setitem_of_default by done. csimpl.
    apply IH. by apply setitem_wf.
Qed.

Lemma transform_fields_of_default p W D n fields q :
  Pandas.wf p → Pandas.wf q →
  agrees (Labelled.transform_fields (Labelled.of_default p) W D n fields
            (Labelled.of_default q))
         (transform_fields p W D n fields q).
Proof.
  intros Hp. revert q. induction fields as [|f fields IH]; intros q Hq.
  - done.
  - cbn [Labelled.transform_fields transform_fields].
    destruct (decide (f ∈ W)).
    + pose proof (transform_lags_of_default p f (seq 0 n) q Hp Hq) as Hlags.
      destruct (transform_lags p f (seq 0 n) q) as [q'|] eqn:Hq'; csimpl.
      * simpl in Hlags. rewrite Hlags. csimpl. apply IH.
        by eapply transform_lags_wf.
      * destruct Hlags as [key ->]. csimpl. by exists key.
    + destruct (decide (f ∈ D)); [by apply IH|].
      unfold Labelled.getitem, Labelled.column, Pandas.getitem.
      cbn [Labelled.of_default Labelled.columns Labelled.index].
      destruct (dict_get f (Pandas.columns p)) as [col|] eqn:Hcol; csimpl;
        [|by exists f].
      rewrite <- (getitem_length p f col Hp Hcol).
      rewrite setitem_of_default by done. csimpl.
      apply IH. by apply setitem_wf.
Qed.

(** On a table with the default index, [transform] with the row labels
    written out is [transform] by position. *)
Lemma transform_of_default p fs n :
  Pandas.wf p →
  agrees (Labelled.transform (Labelled.of_default p) fs n) (transform p fs n).
Proof.
  intros Hp. apply (transform_fields_of_default p _ _ n _ Pandas.empty_frame Hp).
  apply empty_frame_wf.
Qed.

(** *** Tables with any row labels *)

Lemma ensure_valid_index_labelled_names d value :
  Labelled.names (Labelled.ensure_valid_index d value) = Labelled.names d.
Proof.
  unfold Labelled.ensure_valid_index, Labelled.names.
  case_decide; [|done]. simpl.
  rewrite <- list_fmap_compose. apply list_fmap_ext. by intros ? [? ?].
Qed.

(** The assignment of a series with distinct labels does not raise. *)
Lemma setitem_labelled d key value :
  NoDup (Labelled.s_index value) →
  ∃ d', Labelled.setitem d key value = Ok d'
        ∧ Labelled.names d' = assign_name key (Labelled.names d).
Proof.
  intros Hnd. unfold Labelled.setitem, Labelled.reindex_for_setitem.
  destruct (decide (_ ∨ _)); csimpl.
  - eexists. split; [done|]. unfold Labelled.names at 1. simpl.
    rewrite dict_set_names. f_equal.
    apply ensure_valid_index_labelled_names.
  - rewrite decide_True by done. csimpl.
    eexists. split; [done|]. unfold Labelled.names at 1. simpl.
    rewrite dict_set_names. f_equal.
    apply ensure_valid_index_labelled_names.
Qed.

Lemma transform_lags_labelled df f lags d :
  is_Some (Labelled.column df f) →
  ∃ d', Labelled.transform_lags df f lags d = Ok d'
        ∧ Labelled.names d'
          = assign_names (Labelled.names d) (new_field f <$> lags).
Proof.
  intros [col Hcol]. revert d.
  induction lags as [|i lags IH]; intros d.
  - by exists d.
  - cbn [Labelled.transform_lags]. unfold Labelled.getitem.
    rewrite Hcol. csimpl.
    destruct (setitem_labelled d (new_field f i)
                (Labelled.lag_value i
                   (Z.of_nat (Labelled.len df) - Z.of_nat i)
                   (Labelled.mkSeries (Labelled.index df) col)))
      as (d1 & -> & Hn1); [apply range_index_NoDup|]. csimpl.
    destruct (IH d1) as (d' & -> & Hn'). exists d'. split; [done|].
    by rewrite Hn', Hn1.
Qed.

(** On a table with distinct row labels whose columns include the
    fields, the loop of [transform] does not raise. *)
Lemma transform_fields_labelled df W D n fields d :
  NoDup (Labelled.index df) →
  (∀ f, f ∈ fields → is_Some (Labelled.column df f)) →
  ∃ d', Labelled.transform_fields df W D n fields d = Ok d'
        ∧ Labelled.names d'
          = assign_names (Labelled.names d) (fields ≫= field_columns W D n).
Proof.
  intros Hnd. revert d.
  induction fields as [|f fields IH]; intros d Hin.
  - by exists d.
  - assert (∀ g, g ∈ fields → is_Some (Labelled.column df g)) as Hin'
      by (intros g Hg; apply Hin; by right).
    cbn [Labelled.transform_fields]. csimpl. rewrite assign_names_app.
    destruct (decide (f ∈ W)).
    + rewrite field_columns_windowed by done.
      destruct (transform_lags_labelled df f (seq 0 n) d)
        as (d1 & -> & Hn1); [apply Hin; left|]. csimpl.
      destruct (IH d1 Hin') as (d' & -> & Hn'). exists d'.
      split; [done|]. by rewrite Hn', Hn1.
    + destruct (decide (f ∈ D)).
      * rewrite field_columns_dropped by done. by apply IH.
      * rewrite field_columns_kept by done.
        destruct (Hin f) as [col Hcol]; [left|].
        unfold Labelled.getitem. rewrite Hcol. csimpl.
        destruct (setitem_labelled d f
                    (Labelled.mkSeries (Labelled.index df) col))
          as (d1 & -> & Hn1); [done|]. csimpl.
        destruct (IH d1 Hin') as (d' & -> & Hn'). exists d'.
        split; [done|]. by rewrite Hn', Hn1.
Qed.

Lemma transform_fields_labelled_ext df W D D' n fields d :
  (∀ g, g ∈ fields → g ∉ W → g ∈ D ↔ g ∈ D') →
  Labelled.transform_fields df W D n fields d
  = Labelled.transform_fields df W D' n fields d.
Proof.
  revert d. induction fields as [|f fields IH]; intros d Hext.
  - done.
  - assert (∀ g, g ∈ fields → g ∉ W → g ∈ D ↔ g ∈ D') as Hext'
      by (intros g Hg; apply Hext; by right).
    cbn [Labelled.transform_fields].
    destruct (decide (f ∈ W)) as [Hw|Hw].
    + destruct (Labelled.transform_lags df f (seq 0 n) d); csimpl; [|done].
      by apply IH.
    + pose proof (Hext f ltac:(left) Hw) as Hf.
      destruct (decide (f ∈ D)), (decide (f ∈ D')); try tauto.
      * by apply IH.
      * destruct (Labelled.getitem df f); csimpl; [|done].
        destruct (Labelled.setitem d f a); csimpl; [|done]. by apply IH.
Qed.

End labelled_facts.

Section labelled_claims.
Implicit Types (df out : Labelled.DataFrame) (fs : FieldsSetting).
Implicit Types (f : string).

(** A lag column has the default index; assigned to a frame that took the
    labels of a kept column before, it has no value under any of them. *)
Example transform_labelled_rows :
  Labelled.transform table_labelled keep_id_window_A 1
  = Ok (Labelled.mkDataFrame [Labelled.LInt 4; Labelled.LInt 8]
          [("id", [Some "a"; Some "b"]); ("A_T-0", [None; None])]).
Proof. vm_compute. reflexivity. Qed.

(** A kept column assigned after a lag column is aligned to the positions
    and has no value under any of them. *)
Example transform_labelled_kept :
  Labelled.transform table_labelled window_A_keep_id 1
  = Ok (Labelled.mkDataFrame [Labelled.LInt 0; Labelled.LInt 1]
          [("A_T-0", [Some "1"; Some "2"]); ("id", [None; None])]).
Proof. vm_compute. reflexivity. Qed.

(** Hence the condition on the row labels of the theorems on contents
    below. *)
Lemma lag_columns_labelled_rows :
  Labelled.wf table_labelled
  ∧ Labelled.fields_in_table table_labelled keep_id_window_A
  ∧ NoDup (output_columns keep_id_window_A 1)
  ∧ ¬ lag_columns_labelled table_labelled keep_id_window_A 1.
Proof.
  split_and!; [compute_done..|].
  intros (out & Hout & Hspec).
  rewrite transform_labelled_rows in Hout. injection Hout as <-.
  destruct (Hspec "A" [Some "1"; Some "2"]) as [_ Hlag];
    [split; compute_done|reflexivity|].
  destruct (Hlag 0) as (s & Hs & _ & _ & _ & H0); [lia|].
  vm_compute in Hs. injection Hs as <-.
  specialize (H0 eq_refl). discriminate H0.
Qed.

Lemma kept_fields_labelled_rows :
  ¬ kept_fields_labelled table_labelled window_A_keep_id 1.
Proof.
  intros (out & Hout & _ & Hval).
  rewrite transform_labelled_kept in Hout. injection Hout as <-.
  assert (kept window_A_keep_id "id") as Hkept by compute_done.
  specialize (Hval "id" Hkept). vm_compute in Hval.
  discriminate Hval.
Qed.

(** C1, as stated, fails: with columns [A] and [A_T-0], [A] windowed and
    [A_T-0] kept, the kept column is assigned after the generated one
    under the same name, and the output column [A_T-0] holds [x, y], not
    the values of [A]. *)
Lemma lag_columns_spec_collision :
  ¬ lag_columns_labelled (Labelled.of_default table_A_lag)
      window_A_keep_lag 1.
Proof.
  intros (out & Hout & Hspec).
  vm_compute in Hout. injection Hout as <-.
  destruct (Hspec "A" [Some "1"; Some "2"]) as [_ Hlag].
  { split; compute_done. }
  { reflexivity. }
  destruct (Hlag 0) as (s & Hs & _ & _ & _ & H0); [lia|].
  vm_compute in Hs. injection Hs as <-.
  specialize (H0 eq_refl). discriminate H0.
Qed.

(** C1 (amended): for a table with the default row index and at least
    one row whose columns include all fields, and a classification whose
    output names are pairwise distinct, [transform] returns a table in
    which every windowed field [f] has [n_lags] columns of distinct
    names [f_T-i]; the column of lag [i] is as long as the table, its
    first [i] rows are the missing marker, row [r >= i] holds the source
    value of row [r - i], and lag 0 is the source column. *)
Theorem transform_lag_columns df fs n_lags :
  Labelled.wf df → Labelled.default_index df → 0 < Labelled.len df →
  Labelled.fields_in_table df fs →
  NoDup (output_columns fs n_lags) →
  lag_columns_labelled df fs n_lags.
Proof.
  intros Hwf Hdef Hpos Hin Hnd.
  pose proof (positional_wf df Hwf) as Hwf'.
  destruct (lag_columns_aligned (Labelled.positional df) fs n_lags
              Hwf' Hpos Hin Hnd) as (q & Hq & Hspec).
  exists (Labelled.of_default q). split; [|exact Hspec].
  pose proof (transform_of_default (Labelled.positional df) fs n_lags Hwf')
    as Hag.
  rewrite Hq, of_default_positional in Hag by done. exact Hag.
Qed.

Lemma transform_lag_columns_witness :
  Labelled.wf (Labelled.of_default table_A)
  ∧ Labelled.default_index (Labelled.of_default table_A)
  ∧ 0 < Labelled.len (Labelled.of_default table_A)
  ∧ Labelled.fields_in_table (Labelled.of_default table_A) window_A
  ∧ NoDup (output_columns window_A 2)
  ∧ lag_columns_labelled (Labelled.of_default table_A) window_A 2.
Proof.
  assert (Labelled.wf (Labelled.of_default table_A)) as Hwf
    by compute_done.
  assert (Labelled.default_index (Labelled.of_default table_A)) as Hdef
    by compute_done.
  assert (0 < Labelled.len (Labelled.of_default table_A)) as Hpos
    by compute_done.
  assert (Labelled.fields_in_table (Labelled.of_default table_A) window_A)
    as Hin by compute_done.
  assert (NoDup (output_columns window_A 2)) as Hnd by compute_done.
  split_and!; [done..|].
  exact (transform_lag_columns (Labelled.of_default table_A) window_A 2
           Hwf Hdef Hpos Hin Hnd).
Defined.

(** C3, as stated, fails: with the fields [A_T-0] (kept) and [A]
    (windowed), the kept column is overwritten by the generated column of
    the same name and holds the values of [A]. *)
Lemma kept_fields_spec_collision :
  ¬ kept_fields_labelled (Labelled.of_default table_lag_A)
      keep_lag_window_A 1.
Proof.
  intros (out & Hout & _ & Hval).
  vm_compute in Hout. injection Hout as <-.
  assert (kept keep_lag_window_A "A_T-0") as Hkept by compute_done.
  specialize (Hval "A_T-0" Hkept). vm_compute in Hval.
  discriminate Hval.
Qed.

(** C3 (amended): for a table with the default row index and at least
    one row whose columns include all fields, and a classification whose
    output names are pairwise distinct, every kept field is a column of
    the output with the contents of the source column, and the kept
    columns stand in the order of the kept fields. *)
Theorem transform_kept_fields df fs n_lags :
  Labelled.wf df → Labelled.default_index df → 0 < Labelled.len df →
  Labelled.fields_in_table df fs →
  NoDup (output_columns fs n_lags) →
  kept_fields_labelled df fs n_lags.
Proof.
  intros Hwf Hdef Hpos Hin Hnd.
  pose proof (positional_wf df Hwf) as Hwf'.
  destruct (kept_fields_aligned (Labelled.positional df) fs n_lags
              Hwf' Hpos Hin Hnd) as (q & Hq & Hspec).
  exists (Labelled.of_default q). split; [|exact Hspec].
  pose proof (transform_of_default (Labelled.positional df) fs n_lags Hwf')
    as Hag.
  rewrite Hq, of_default_positional in Hag by done. exact Hag.
Qed.

Lemma transform_kept_fields_witness :
  Labelled.wf (Labelled.of_default table_id_value)
  ∧ Labelled.default_index (Labelled.of_default table_id_value)
  ∧ 0 < Labelled.len (Labelled.of_default table_id_value)
  ∧ Labelled.fields_in_table (Labelled.of_default table_id_value)
      keep_id_window_value
  ∧ NoDup (output_columns keep_id_window_value 2)
  ∧ kept_fields_labelled (Labelled.of_default table_id_value)
      keep_id_window_value 2.
Proof.
  assert (Labelled.wf (Labelled.of_default table_id_value)) as Hwf
    by compute_done.
  assert (Labelled.default_index (Labelled.of_default table_id_value))
    as Hdef by compute_done.
  assert (0 < Labelled.len (Labelled.of_default table_id_value)) as Hpos
    by compute_done.
  assert (Labelled.fields_in_table (Labelled.of_default table_id_value)
            keep_id_window_value) as Hin by compute_done.
  assert (NoDup (output_columns keep_id_window_value 2)) as Hnd
    by compute_done.
  split_and!; [done..|].
  exact (transform_kept_fields (Labelled.of_default table_id_value)
           keep_id_window_value 2 Hwf Hdef Hpos Hin Hnd).
Defined.

(** X6: when several fields of the classification give a column of the
    same name, the column of the output holds what was assigned last: for
    a table with the default row index and at least one row, a name holds
    the value of the last entry for it in the sequence of assignments
    [transform] makes. *)
Theorem transform_last_assignment df fs n_lags out before c v after :
  Labelled.wf df → Labelled.default_index df → 0 < Labelled.len df →
  Labelled.transform df fs n_lags = Ok out →
  output_assignments (Labelled.positional df) fs n_lags
  = before ++ (c, v) :: after →
  c ∉ after.*1 →
  Labelled.column out c = Some v.
Proof.
  intros Hwf Hdef Hpos Hout Hasg Hafter.
  pose proof (positional_wf df Hwf) as Hwf'.
  pose proof (transform_of_default (Labelled.positional df) fs n_lags Hwf')
    as Hag.
  rewrite of_default_positional, Hout in Hag by done.
  destruct (transform (Labelled.positional df) fs n_lags) as [q|] eqn:Hq;
    simpl in Hag.
  - injection Hag as ->.
    by apply (last_assignment_aligned (Labelled.positional df) fs n_lags q
                before c v after).
  - by destruct Hag.
Qed.

Lemma transform_last_assignment_witness :
  ∃ out, Labelled.transform (Labelled.of_default table_lag_A)
           keep_lag_window_A 1 = Ok out
         ∧ Labelled.column out "A_T-0" = Some [Some "1"; Some "2"].
Proof.
  assert (Labelled.wf (Labelled.of_default table_lag_A)) as Hwf
    by compute_done.
  assert (Labelled.default_index (Labelled.of_default table_lag_A))
    as Hdef by compute_done.
  assert (0 < Labelled.len (Labelled.of_default table_lag_A)) as Hpos
    by compute_done.
  destruct (Labelled.transform (Labelled.of_default table_lag_A)
              keep_lag_window_A 1) as [out|e] eqn:Hout;
    [|vm_compute in Hout; discriminate Hout].
  exists out. split; [done|].
  apply (transform_last_assignment (Labelled.of_default table_lag_A)
           keep_lag_window_A 1 out
           [("A_T-0", [Some "x"; Some "y"])] "A_T-0"
           [Some "1"; Some "2"] [] Hwf Hdef Hpos Hout).
  - vm_compute. reflexivity.
  - compute_done.
Defined.

(** C10: a field named in [fields_to_window] and in [fields_to_drop] is
    handled as a windowed field.  [transform] does what it does when the
    field is taken out of [fields_to_drop].  On a table with distinct row
    labels whose columns include all fields it returns a table that has
    the [n_lags] generated columns of the field; and on a table with the
    default row index and at least one row, for output names that are
    pairwise distinct, these columns are the lag columns of the source
    column. *)
Theorem transform_windowed_and_dropped df fs n_lags f :
  f ∈ all_fields fs → f ∈ fields_to_window fs → f ∈ fields_to_drop fs →
  Labelled.transform df fs n_lags
  = Labelled.transform df (undrop fs f) n_lags
  ∧ (Labelled.fields_in_table df fs → NoDup (Labelled.index df) →
     ∃ out, Labelled.transform df fs n_lags = Ok out
            ∧ ∀ i, i < n_lags → new_field f i ∈ Labelled.names out)
  ∧ (Labelled.wf df → Labelled.default_index df → 0 < Labelled.len df →
     Labelled.fields_in_table df fs → NoDup (output_columns fs n_lags) →
     ∃ out, Labelled.transform df fs n_lags = Ok out
            ∧ ∀ col i, Labelled.column df f = Some col → i < n_lags →
                ∃ s, Labelled.column out (new_field f i) = Some s
                     ∧ lag_column (Labelled.positional df) col i s).
Proof.
  intros Hf Hw Hd. split_and!.
  - unfold Labelled.transform, undrop. simpl.
    apply transform_fields_labelled_ext.
    intros g _ Hg. rewrite !elem_of_list_to_set, list_elem_of_filter.
    split; [|by intros [_ ?]]. intros Hgd. split; [|done].
    intros ->. apply Hg. by apply elem_of_list_to_set.
  - intros Hin Hnd.
    destruct (transform_fields_labelled df
                (list_to_set (fields_to_window fs))
                (list_to_set (fields_to_drop fs)) n_lags (all_fields fs)
                Labelled.empty_frame Hnd) as (out & Hout & Hnames).
    { intros g Hg. by apply (proj1 (Forall_forall _ _) Hin). }
    exists out. split; [done|]. intros i Hi. rewrite Hnames.
    apply assign_names_elem.
    apply (output_columns_elem fs n_lags). left. exists f, i. by split.
  - intros Hwf Hdef Hpos Hin Hnd.
    pose proof (positional_wf df Hwf) as Hwf'.
    destruct (lag_columns_aligned (Labelled.positional df) fs n_lags
                Hwf' Hpos Hin Hnd) as (q & Hq & Hspec).
    exists (Labelled.of_default q). split.
    + pose proof (transform_of_default (Labelled.positional df) fs n_lags
                    Hwf') as Hag.
      rewrite Hq, of_default_positional in Hag by done. exact Hag.
    + intros col i Hcol Hi.
      by apply (proj2 (Hspec f col (conj Hf Hw) Hcol)).
Qed.

Lemma transform_windowed_and_dropped_witness :
  ∃ out, Labelled.transform (Labelled.of_default table_id_value)
           window_and_drop_value 2 = Ok out
         ∧ Labelled.transform (Labelled.of_default table_id_value)
             keep_id_window_value 2 = Ok out
         ∧ new_field "value" 0 ∈ Labelled.names out
         ∧ new_field "value" 1 ∈ Labelled.names out.
Proof.
  assert ("value" ∈ all_fields window_and_drop_value) as Hf
    by compute_done.
  assert ("value" ∈ fields_to_window window_and_drop_value) as Hw
    by compute_done.
  assert ("value" ∈ fields_to_drop window_and_drop_value) as Hd
    by compute_done.
  assert (Labelled.fields_in_table (Labelled.of_default table_id_value)
            window_and_drop_value) as Hin by compute_done.
  assert (NoDup (Labelled.index (Labelled.of_default table_id_value)))
    as Hnd by compute_done.
  destruct (transform_windowed_and_dropped
              (Labelled.of_default table_id_value)
              window_and_drop_value 2 "value" Hf Hw Hd)
    as (Heq & Hnames & _).
  destruct (Hnames Hin Hnd) as (out & Hout & Hcols).
  exists out. split_and!.
  - done.
  - rewrite <- Hout, Heq. reflexivity.
  - apply Hcols. lia.
  - apply Hcols. lia.
Defined.

End labelled_claims.
